(** * ToneSoul conscience layer: ledger, confirmation gate, council, audit

    A shallow embedding of [src/genesis.py], [src/council.py] and
    [src/benevolence.py], with the properties of the design document
    stated and proved over it.

    Conventions of the embedding.
    - Python [str] values are Rocq strings.  [str.lower] and [str.split]
      are modelled on the ASCII range (letters [A]-[Z], the ten ASCII
      white-space characters); other characters are left alone.
    - Python [float] values are modelled as exact rationals ([Q]); the
      scores are quotients of small counts and the literals [0.3], [0.5]
      are read as 3/10 and 1/2.
    - Python dictionaries are [gmap], Python sets are [gset].
    - What the outside world supplies (the uuid and the clock of a new
      record, the replies of the language model) is an explicit argument. *)

From Stdlib Require Import Ascii QArith Lqa.
From stdpp Require Import gmap strings list fin_maps fin_sets.

(* ===================================================================== *)
(** ** Text primitives: [str.lower], [in], [str.split] *)
(* ===================================================================== *)

Module Text.

(** [c.lower()] on one character. *)
Definition lower_char (c : ascii) : ascii :=
  let n := nat_of_ascii c in
  if (65 <=? n)%nat && (n <=? 90)%nat then ascii_of_nat (n + 32) else c.

(** [s.lower()]. *)
Fixpoint lower (s : string) : string :=
  match s with
  | EmptyString => EmptyString
  | String c s' => String (lower_char c) (lower s')
  end.

(** [s.startswith(p)]. *)
Fixpoint startswith (p s : string) : bool :=
  match p, s with
  | EmptyString, _ => true
  | String _ _, EmptyString => false
  | String a p', String b s' => if decide (a = b) then startswith p' s' else false
  end.

(** [kw in s] for two strings: [kw] occurs in [s] as a contiguous run. *)
Fixpoint contains (kw s : string) : bool :=
  startswith kw s ||
  match s with
  | EmptyString => false
  | String _ s' => contains kw s'
  end.

(** The declarative reading of [kw in s]. *)
Definition substring (kw s : string) : Prop :=
  ∃ pre post : string, s = pre +:+ kw +:+ post.

(** The characters on which [str.split()] cuts: tab, line feed, vertical
    tab, form feed, carriage return, the four separators 28-31, space. *)
Definition is_space (c : ascii) : bool :=
  let n := nat_of_ascii c in
  ((9 <=? n)%nat && (n <=? 13)%nat) || ((28 <=? n)%nat && (n <=? 32)%nat).

(** [s.split()]: the maximal runs of non-space characters, in order.
    [cur] is the word being read. *)
Fixpoint split_go (cur : string) (s : string) : list string :=
  match s with
  | EmptyString => if decide (cur = "") then [] else [cur]
  | String c s' =>
      if is_space c then
        (if decide (cur = "") then split_go "" s' else cur :: split_go "" s')
      else split_go (cur +:+ String c "") s'
  end.

Definition split (s : string) : list string := split_go "" s.

(** A text without a word: white space only, or nothing at all. *)
Fixpoint blank (s : string) : bool :=
  match s with
  | EmptyString => true
  | String c s' => is_space c && blank s'
  end.

(** [any(kw in text for kw in keywords)]. *)
Definition any_in (keywords : list string) (text : string) : bool :=
  existsb (λ kw, contains kw text) keywords.

(** [s.split(sep)] for a separator of one character: the pieces between
    the separators, empty pieces included; [cur] is the piece being read. *)
Fixpoint split_on_go (sep : ascii) (cur s : string) : list string :=
  match s with
  | EmptyString => [cur]
  | String c s' =>
      if decide (c = sep) then cur :: split_on_go sep "" s'
      else split_on_go sep (cur +:+ String c "") s'
  end.

Definition split_on (sep : ascii) (s : string) : list string :=
  split_on_go sep "" s.

(** The text before the first [sep], all of it when there is none. *)
Fixpoint before (sep : ascii) (s : string) : string :=
  match s with
  | EmptyString => EmptyString
  | String c s' => if decide (c = sep) then EmptyString else String c (before sep s')
  end.

(** [c in s] for a character. *)
Fixpoint has_char (c : ascii) (s : string) : bool :=
  match s with
  | EmptyString => false
  | String a s' => bool_decide (a = c) || has_char c s'
  end.

End Text.

(* ===================================================================== *)
(** ** [src/genesis.py]: provenance records and the ledger *)
(* ===================================================================== *)

Module Ledger.

Inductive ResponsibilityTier := SYSTEM | DEVELOPER | USER | AI.

(** [tier.value]. *)
Definition tier_value (t : ResponsibilityTier) : Z :=
  match t with SYSTEM => 0 | DEVELOPER => 1 | USER => 2 | AI => 3 end.

Record Genesis := mkGenesis {
  id : string;
  timestamp : string;
  initiator : string;
  tier : ResponsibilityTier;
  original_request : string;
  parent_id : option string;
  children_ids : list string;
  is_mine : bool;
  confirmed : bool;
  confirmation_reason : option string;
}.

(** [g.children_ids.append(child)]. *)
Definition append_child (child : string) (g : Genesis) : Genesis :=
  mkGenesis (id g) (timestamp g) (initiator g) (tier g) (original_request g)
            (parent_id g) (children_ids g ++ [child]) (is_mine g)
            (confirmed g) (confirmation_reason g).

(** [g.confirmed = True; g.confirmation_reason = reason]. *)
Definition set_confirmed (reason : string) (g : Genesis) : Genesis :=
  mkGenesis (id g) (timestamp g) (initiator g) (tier g) (original_request g)
            (parent_id g) (children_ids g) (is_mine g)
            true (Some reason).

(** The ledger object: the in-memory index [records] and the lines of
    the append-only file at [ledger_path].  A line is the [to_dict]
    snapshot of a record, which carries every field. *)
Record GenesisLedger := mkLedger {
  records : gmap string Genesis;
  ledger_file : list Genesis;
}.

(** [GenesisLedger(path)]: an empty index; the file is whatever is on
    disk already. *)
Definition init (file : list Genesis) : GenesisLedger := mkLedger ∅ file.

(** [_append_to_ledger]. *)
Definition _append_to_ledger (file : list Genesis) (g : Genesis) : list Genesis :=
  file ++ [g].

(** Truth value of an [Optional[str]]: [None] and [""] are false. *)
Definition truthy (o : option string) : bool :=
  match o with
  | None => false
  | Some s => if decide (s = "") then false else true
  end.

(** [create].  [gid] and [ts] are what [uuid.uuid4()] (cut to eight
    characters) and [datetime.utcnow()] return in the constructor. *)
Definition create (self : GenesisLedger) (gid ts : string)
    (initiator request : string) (tier : ResponsibilityTier)
    (parent_id : option string) (is_mine : bool) : Genesis * GenesisLedger :=
  let genesis :=
    mkGenesis gid ts initiator tier request parent_id [] is_mine false None in
  let linked :=
    match parent_id with
    | Some p =>
        if truthy parent_id && bool_decide (is_Some (records self !! p))
        then alter (append_child gid) p (records self)
        else records self
    | None => records self
    end in
  (genesis,
   mkLedger (<[gid := genesis]> linked)
            (_append_to_ledger (ledger_file self) genesis)).

(** [confirm]: a miss returns [False] and touches nothing. *)
Definition confirm (self : GenesisLedger) (genesis_id reason : string)
    : bool * GenesisLedger :=
  match records self !! genesis_id with
  | None => (false, self)
  | Some g =>
      let g' := set_confirmed reason g in
      (true,
       mkLedger (<[genesis_id := g']> (records self))
                (_append_to_ledger (ledger_file self) g'))
  end.

(** The [while] loop of [get_chain], with a bound on the number of
    tests of the loop condition: [None] means the bound was reached
    before the loop left. *)
Fixpoint get_chain_loop (fuel : nat) (recs : gmap string Genesis)
    (current_id : option string) (chain : list Genesis)
    : option (list Genesis) :=
  match fuel with
  | O => None
  | S fuel' =>
      match current_id with
      | Some cid =>
          if truthy current_id then
            match recs !! cid with
            | Some g => get_chain_loop fuel' recs (parent_id g) (chain ++ [g])
            | None => Some chain
            end
          else Some chain
      | None => Some chain
      end
  end.

(** [get_chain]. *)
Definition get_chain (fuel : nat) (self : GenesisLedger) (genesis_id : string)
    : option (list Genesis) :=
  reverse <$> get_chain_loop fuel (records self) (Some genesis_id) [].

(** *** Calls and runs *)

Inductive call :=
| Create (gid ts initiator request : string) (tier : ResponsibilityTier)
         (parent_id : option string) (is_mine : bool)
| Confirm (genesis_id reason : string).

Definition exec (self : GenesisLedger) (c : call) : GenesisLedger :=
  match c with
  | Create gid ts ini req t p mine => (create self gid ts ini req t p mine).2
  | Confirm gid reason => (confirm self gid reason).2
  end.

Definition run (self : GenesisLedger) (cs : list call) : GenesisLedger :=
  foldl exec self cs.

Definition is_create (c : call) : Prop :=
  match c with Create _ _ _ _ _ _ _ => True | Confirm _ _ => False end.

(** A condition on each call of a run, read in the state the call finds. *)
Fixpoint each_call (P : GenesisLedger → call → Prop)
    (self : GenesisLedger) (cs : list call) : Prop :=
  match cs with
  | [] => True
  | c :: cs' => P self c ∧ each_call P (exec self c) cs'
  end.

(** The id of a new record is a key the index does not hold yet
    (and, being eight characters of a uuid, not the empty string). *)
Definition fresh_key (self : GenesisLedger) (c : call) : Prop :=
  match c with
  | Create gid _ _ _ _ _ _ => gid ≠ "" ∧ records self !! gid = None
  | Confirm _ _ => True
  end.

(** The id of a new record is unique: no caller has used it before,
    neither as the parent of a stored record nor as the parent of the
    record being created. *)
Definition unreferenced (self : GenesisLedger) (c : call) : Prop :=
  match c with
  | Create gid _ _ _ _ p _ =>
      p ≠ Some gid ∧
      map_Forall (λ _ g, parent_id g ≠ Some gid) (records self)
  | Confirm _ _ => True
  end.

(** The caller passes no parent, or the id of a stored record. *)
Definition parent_valid (self : GenesisLedger) (c : call) : Prop :=
  match c with
  | Create _ _ _ _ _ (Some p) _ => is_Some (records self !! p)
  | _ => True
  end.

(** The linkage the design document asks of a store: a record that names
    a parent has that parent in the store, and is in its child list. *)
Definition linked (self : GenesisLedger) : Prop :=
  ∀ k g p, records self !! k = Some g → parent_id g = Some p →
    ∃ pg, records self !! p = Some pg ∧ id g ∈ children_ids pg.

(** A list of records read upwards, from a record to the end of the walk:
    each record is stored under its id, each next one is the parent of
    the one before, and the last one names no parent or a parent the
    store does not hold. *)
Inductive upward (recs : gmap string Genesis) : list Genesis → Prop :=
| upward_top g :
    recs !! id g = Some g →
    (truthy (parent_id g) = false ∨ ∃ p, parent_id g = Some p ∧ recs !! p = None) →
    upward recs [g]
| upward_next g pg l :
    recs !! id g = Some g →
    truthy (parent_id g) = true →
    parent_id g = Some (id pg) →
    upward recs (pg :: l) →
    upward recs (g :: pg :: l).

(** The linkage [create] does make: a stored record whose parent is
    stored is in the child list of that parent. *)
Definition linked_where_stored (recs : gmap string Genesis) : Prop :=
  ∀ k g p pg, recs !! k = Some g → parent_id g = Some p →
    recs !! p = Some pg → k ∈ children_ids pg.

(** Every record is stored under its own id, and no id is empty. *)
Definition keyed (recs : gmap string Genesis) : Prop :=
  ∀ k g, recs !! k = Some g → id g = k ∧ k ≠ "".

(** A child list names stored records, each once. *)
Definition children_sound (recs : gmap string Genesis) : Prop :=
  ∀ k g, recs !! k = Some g →
    NoDup (children_ids g) ∧ ∀ c, c ∈ children_ids g → is_Some (recs !! c).

(** The store is ranked: a stored parent ranks below its child, and all
    stored ids rank below [bound].  A ranked store has no parent cycle. *)
Definition ranked (recs : gmap string Genesis) (rk : string → nat)
    (bound : nat) : Prop :=
  (∀ k, is_Some (recs !! k) → rk k < bound) ∧
  (∀ k g p, recs !! k = Some g → parent_id g = Some p →
     is_Some (recs !! p) → rk p < rk k).

(** Two short runs: a child created under a stored parent, and a record
    created under a parent id that no record bears. *)
Definition family_run : list call :=
  [Create "3f2a9c1e" "2024-05-01T10:00:00" "alice" "draft the report" USER None false;
   Create "7b40d5aa" "2024-05-01T10:00:05" "assistant" "collect the figures" AI
          (Some "3f2a9c1e") true].

Definition dangling_run : list call :=
  [Create "3f2a9c1e" "2024-05-01T10:00:00" "alice" "draft the report" USER
          (Some "deadbeef") false].

(** A run in which the uuid of the new record happens to be the very
    string the caller passed as parent. *)
Definition guessed_id_run : list call :=
  [Create "3f2a9c1e" "2024-05-01T10:00:00" "alice" "draft the report" USER
          (Some "3f2a9c1e") false].

(** A record the assistant owns, at the AI tier. *)
Definition own_ai_record : Genesis :=
  mkGenesis "7b40d5aa" "2024-05-01T10:00:05" "assistant" AI
            "collect the figures" None [] true false None.

(** *** The confirmation gate *)

Definition HIGH_RISK_ACTIONS : list string :=
  ["delete"; "remove"; "destroy";
   "override"; "ignore"; "break";
   "betray"; "abandon"].

(** [ConfirmationGate.requires_confirmation]. *)
Definition requires_confirmation (action : string) (genesis : Genesis) : bool :=
  if Text.any_in HIGH_RISK_ACTIONS (Text.lower action) then true
  else if is_mine genesis && (tier_value USER <=? tier_value (tier genesis))%Z then true
  else false.

(** *** Serialisation and the file *)

(** [tier.name]. *)
Definition tier_name (t : ResponsibilityTier) : string :=
  match t with
  | SYSTEM => "SYSTEM"
  | DEVELOPER => "DEVELOPER"
  | USER => "USER"
  | AI => "AI"
  end.

(** The values [to_dict] puts in the dictionary. *)
Inductive value :=
| VNone
| VBool (b : bool)
| VStr (s : string)
| VList (l : list string).

Definition optional_str (o : option string) : value :=
  match o with
  | None => VNone
  | Some s => VStr s
  end.

(** [Genesis.to_dict]: the keys in the order of the literal. *)
Definition to_dict (self : Genesis) : list (string * value) :=
  [("id", VStr (id self));
   ("timestamp", VStr (timestamp self));
   ("initiator", VStr (initiator self));
   ("tier", VStr (tier_name (tier self)));
   ("original_request", VStr (original_request self));
   ("parent_id", optional_str (parent_id self));
   ("children_ids", VList (children_ids self));
   ("is_mine", VBool (is_mine self));
   ("confirmed", VBool (confirmed self));
   ("confirmation_reason", optional_str (confirmation_reason self))].

(** What a reader of the file takes for the record of an id: the last
    line written for it. *)
Definition latest (file : list Genesis) (k : string) : option Genesis :=
  last (filter (λ s, id s = k) file).

(** Two states of a record with the same origin: all the fields [create]
    sets from its arguments, the uuid and the clock. *)
Definition same_origin (g g' : Genesis) : Prop :=
  id g' = id g ∧ timestamp g' = timestamp g ∧ initiator g' = initiator g
  ∧ tier g' = tier g ∧ original_request g' = original_request g
  ∧ parent_id g' = parent_id g ∧ is_mine g' = is_mine g.

(** [g'] is a later state of the record [g]: the same origin, children
    added at the end of the list only, a confirmation not taken back. *)
Definition later_state (g g' : Genesis) : Prop :=
  same_origin g g'
  ∧ children_ids g `prefix_of` children_ids g'
  ∧ (confirmed g = true → confirmed g' = true).

(** A line of the file against the stored record: the same origin and
    confirmation fields, and the children the record had when the line
    was written. *)
Definition snapshot_of (line g : Genesis) : Prop :=
  same_origin line g
  ∧ confirmed line = confirmed g
  ∧ confirmation_reason line = confirmation_reason g
  ∧ children_ids line `prefix_of` children_ids g.

(** The number of lines a call writes. *)
Definition lines_written (self : GenesisLedger) (c : call) : nat :=
  match c with
  | Create _ _ _ _ _ _ _ => 1
  | Confirm k _ => if bool_decide (is_Some (records self !! k)) then 1 else 0
  end.

(** The ids a run creates, in order. *)
Fixpoint created_ids (cs : list call) : list string :=
  match cs with
  | [] => []
  | Create gid _ _ _ _ _ _ :: cs' => gid :: created_ids cs'
  | Confirm _ _ :: cs' => created_ids cs'
  end.

(** The number of lines a run writes. *)
Fixpoint written (self : GenesisLedger) (cs : list call) : nat :=
  match cs with
  | [] => 0
  | c :: cs' => lines_written self c + written (exec self c) cs'
  end.

(** A run with a confirmation of the parent between two creations. *)
Definition confirmed_family_run : list call :=
  [Create "3f2a9c1e" "2024-05-01T10:00:00" "alice" "draft the report" USER None false;
   Confirm "3f2a9c1e" "alice said yes";
   Create "7b40d5aa" "2024-05-01T10:00:05" "assistant" "collect the figures" AI
          (Some "3f2a9c1e") true;
   Confirm "0badc0de" "no such record"].

(** A child list tells the truth: what it names is a stored record that
    names the owner of the list as its parent. *)
Definition children_truthful (recs : gmap string Genesis) : Prop :=
  ∀ p pg c, recs !! p = Some pg → c ∈ children_ids pg →
    ∃ g, recs !! c = Some g ∧ parent_id g = Some p.

End Ledger.

(* ===================================================================== *)
(** ** [src/council.py]: the three-persona council *)
(* ===================================================================== *)

Module Council.

Inductive Persona := PHILOSOPHER | ENGINEER | GUARDIAN.

#[global] Instance Persona_eq_dec : EqDecision Persona.
Proof. solve_decision. Defined.

(** [persona.value]. *)
Definition persona_value (p : Persona) : string :=
  match p with
  | PHILOSOPHER => "philosopher"
  | ENGINEER => "engineer"
  | GUARDIAN => "guardian"
  end.

(** [for persona in Persona]: the members in the order of the class body. *)
Definition all_personas : list Persona := [PHILOSOPHER; ENGINEER; GUARDIAN].

Record CouncilVote := mkVote {
  persona : Persona;
  stance : string;
  concerns : list string;
  approval : bool;
  confidence : Q;
}.

Record CouncilVerdict := mkVerdict {
  approved : bool;
  consensus_level : Q;
  votes : list CouncilVote;
  final_decision : string;
  uncertainty_level : Q;
  requires_confirmation : bool;
}.

(** The state of a [Council] object. *)
Record Council := mkCouncil {
  history : list CouncilVerdict;
}.

(** The JSON object a persona answers with, once parsed. *)
Record Reply := mkReply {
  reply_stance : string;
  reply_concerns : list string;
  reply_approval : bool;
  reply_confidence : Q;
}.

(** [a / b] on Python numbers; [None] is [ZeroDivisionError]. *)
Definition true_div (a : Q) (b : nat) : option Q :=
  match b with
  | O => None
  | S _ => Some (a / inject_Z (Z.of_nat b))%Q
  end.

(** [sum(xs)]: left to right, from the integer 0. *)
Definition sum (xs : list Q) : Q := foldl Qplus 0%Q xs.

(** [sep.join(parts)]. *)
Fixpoint join (sep : string) (parts : list string) : string :=
  match parts with
  | [] => ""
  | [x] => x
  | x :: rest => x +:+ sep +:+ join sep rest
  end.

Definition high_risk_keywords : list string :=
  ["delete"; "remove"; "destroy"; "override";
   "betray"; "break"; "abandon"; "ignore"].

(** [_check_confirmation_required]; [None] is the [StopIteration] of
    [next] when no vote belongs to the guardian. *)
Definition _check_confirmation_required (action : string)
    (votes : list CouncilVote) : option bool :=
  if Text.any_in high_risk_keywords (Text.lower action) then Some true
  else
    match List.find (λ v, bool_decide (persona v = GUARDIAN)) votes with
    | None => None
    | Some guardian_vote =>
        if negb (approval guardian_vote)
           || negb (bool_decide (concerns guardian_vote = []))
        then Some true
        else Some false
    end.

(** [_synthesize_decision]. *)
Definition _synthesize_decision (votes : list CouncilVote) : string :=
  join " | " (map (λ v, persona_value (persona v) +:+ ": " +:+ stance v) votes).

(** [_calculate_uncertainty]. *)
Definition _calculate_uncertainty (votes : list CouncilVote) : option Q :=
  let confidences := map confidence votes in
  avg_confidence ← true_div (sum confidences) (length confidences);
  Some (1 - avg_confidence)%Q.

(** The [CouncilVote(...)] built from a parsed reply. *)
Definition vote_of_reply (p : Persona) (result : Reply) : CouncilVote :=
  mkVote p (reply_stance result) (reply_concerns result)
         (reply_approval result) (reply_confidence result).

(** The votes of the panel, in the order they are taken. *)
Definition panel_votes (r1 r2 r3 : Reply) : list CouncilVote :=
  [vote_of_reply PHILOSOPHER r1; vote_of_reply ENGINEER r2;
   vote_of_reply GUARDIAN r3].

(** The number of approvals among three answers. *)
Definition approvals_of (r1 r2 r3 : Reply) : nat :=
  Nat.b2n (reply_approval r1) + Nat.b2n (reply_approval r2)
  + Nat.b2n (reply_approval r3).

(** Replies used in the examples: the confidences 0.9, 0.8, 0.95 of the
    design document, all approving, the guardian with one concern. *)
Definition philosopher_yes : Reply :=
  mkReply "consistent with stated values" [] true (9 # 10)%Q.
Definition engineer_yes : Reply :=
  mkReply "small and reversible change" [] true (8 # 10)%Q.
Definition guardian_yes_but : Reply :=
  mkReply "safe if the tests are run" ["no rollback plan"] true (95 # 100)%Q.

Definition scripted_advisor (p : Persona) (action : string) (context : unit)
    : option Reply :=
  match p with
  | PHILOSOPHER => Some philosopher_yes
  | ENGINEER => Some engineer_yes
  | GUARDIAN => Some guardian_yes_but
  end.

(** A guardian without concerns, and an advisor whose panel approves
    without any. *)
Definition guardian_yes : Reply :=
  mkReply "no harm foreseen" [] true (9 # 10)%Q.

Definition agreeing_advisor (p : Persona) (action : string) (context : unit)
    : option Reply :=
  match p with
  | PHILOSOPHER => Some philosopher_yes
  | ENGINEER => Some engineer_yes
  | GUARDIAN => Some guardian_yes
  end.


Section Deliberation.

(** The type of the [context] dictionary, which the council only passes on. *)
Context {Ctx : Type}.

(** The language model behind [self.claude], followed by [json.loads] and
    the four field reads of [_get_persona_vote]: the parsed reply, or
    [None] when any of these raises.  One deliberation asks each persona
    once. *)
Variable advisor : Persona → string → Ctx → option Reply.

(** [_get_persona_vote]. *)
Definition _get_persona_vote (p : Persona) (action : string) (context : Ctx)
    : option CouncilVote :=
  result ← advisor p action context;
  Some (vote_of_reply p result).

(** [deliberate]: the verdict and the council with its history extended,
    or [None] when an exception leaves the call. *)
Definition deliberate (self : Council) (action : string) (context : Ctx)
    : option (CouncilVerdict * Council) :=
  votes ← mapM (λ p, _get_persona_vote p action context) all_personas;
  let approvals := length (List.filter approval votes) in
  consensus_level ← true_div (inject_Z (Z.of_nat approvals)) (length votes);
  requires_confirmation ← _check_confirmation_required action votes;
  let final_decision := _synthesize_decision votes in
  uncertainty_level ← _calculate_uncertainty votes;
  let verdict :=
    mkVerdict (bool_decide (approvals = length votes))
              consensus_level votes final_decision
              uncertainty_level requires_confirmation in
  Some (verdict, mkCouncil (history self ++ [verdict])).

End Deliberation.

End Council.

(* ===================================================================== *)
(** ** [src/benevolence.py]: the three-layer audit *)
(* ===================================================================== *)

Module Benevolence.

Inductive AuditLayer := L1 | L2 | L3.

Inductive AuditResult := PASS | FLAG | REJECT | INTERCEPT.

#[global] Instance AuditLayer_eq_dec : EqDecision AuditLayer.
Proof. solve_decision. Defined.

#[global] Instance AuditResult_eq_dec : EqDecision AuditResult.
Proof. solve_decision. Defined.

Record BenevolenceAudit := mkAudit {
  attribute_check : AuditResult;
  shadow_check : AuditResult;
  benevolence_check : AuditResult;
  final_result : AuditResult;
  error_log : option string;
  context_score : Q;
  phrase_score : Q;
  tension_score : Q;
}.

Definition PLEASING_PATTERNS : list string :=
  ["absolutely"; "definitely"; "of course"; "certainly";
   "no problem"; "sure thing"; "I'd be happy to"; "Great question"].

Definition HONEST_PATTERNS : list string :=
  ["I'm not sure"; "I don't know"; "might be"; "could be";
   "uncertain"; "approximately"; "based on limited"].

(** The characters of which the fifteen patterns are made: letters, the
    space and the apostrophe.  None is special in a regular expression. *)
Definition plain_char (c : ascii) : bool :=
  let n := nat_of_ascii c in
  ((65 <=? n)%nat && (n <=? 90)%nat) || ((97 <=? n)%nat && (n <=? 122)%nat)
  || (n =? 32)%nat || (n =? 39)%nat.

Fixpoint plain (s : string) : bool :=
  match s with
  | EmptyString => true
  | String c s' => plain_char c && plain s'
  end.

(** [re.search(pattern, text)] for a pattern of plain characters: the
    pattern matches where it occurs. *)
Definition re_search (pattern text : string) : bool :=
  Text.contains pattern text.

(** [sum(1 for p in patterns if re.search(p.lower(), text))]. *)
Definition count_matches (patterns : list string) (text : string) : nat :=
  length (List.filter (λ p, re_search (Text.lower p) text) patterns).

(** The two counters of [_check_benevolence]. *)
Definition pleasing_count (proposed_action : string) : nat :=
  count_matches PLEASING_PATTERNS (Text.lower proposed_action).

Definition honest_count (proposed_action : string) : nat :=
  count_matches HONEST_PATTERNS (Text.lower proposed_action).

(** [n / m] on two counts with [m] known not to be zero. *)
Definition ratio (n m : nat) : Q :=
  (inject_Z (Z.of_nat n) / inject_Z (Z.of_nat m))%Q.

(** [_check_attribute]. *)
Definition _check_attribute (action_basis : string) (current_layer : AuditLayer)
    : AuditResult :=
  if bool_decide (action_basis = "Inference")
     && negb (bool_decide (current_layer = L2))
  then FLAG
  else PASS.

(** [set(text.lower().split())]. *)
Definition word_set (text : string) : gset string :=
  list_to_set (Text.split (Text.lower text)).

(** The loop that fills [context_words]. *)
Definition context_word_set (context_fragments : list string) : gset string :=
  foldl (λ context_words fragment, context_words ∪ word_set fragment)
        ∅ context_fragments.

(** [_check_shadow]. *)
Definition _check_shadow (proposed_action : string)
    (context_fragments : list string) : AuditResult * Q :=
  match context_fragments with
  | [] => (PASS, (1 # 2)%Q)
  | _ :: _ =>
      let action_words := word_set proposed_action in
      let context_words := context_word_set context_fragments in
      if bool_decide (action_words = ∅) then (PASS, 0%Q)
      else
        let overlap :=
          ratio (size (action_words ∩ context_words)) (size action_words) in
        if Qlt_le_dec overlap (3 # 10)%Q then (REJECT, overlap)
        else (PASS, overlap)
  end.

(** [_check_benevolence]. *)
Definition _check_benevolence (proposed_action : string) : AuditResult * Q :=
  let pleasing_count := pleasing_count proposed_action in
  let honest_count := honest_count proposed_action in
  let total_markers := (pleasing_count + honest_count)%nat in
  let phrase_score :=
    if (total_markers =? 0)%nat then (1 # 2)%Q
    else ratio honest_count total_markers in
  if (2 <=? pleasing_count)%nat && (honest_count =? 0)%nat
  then (INTERCEPT, phrase_score)
  else (PASS, phrase_score).

(** The three messages of [_finalize]. *)
Definition msg_shadow : string := "無影子的輸出".
Definition msg_benevolence : string := "攔截無效敘事".
Definition msg_attribute : string := "跨層混用".

(** The [priority] table of [_finalize]. *)
Definition priority (audit : BenevolenceAudit) : list (AuditResult * string) :=
  [(shadow_check audit, msg_shadow);
   (benevolence_check audit, msg_benevolence);
   (attribute_check audit, msg_attribute)].

(** The [for] loop of [_finalize] over the table. *)
Fixpoint _finalize_loop (table : list (AuditResult * string))
    : AuditResult * option string :=
  match table with
  | [] => (PASS, None)
  | (result, error_msg) :: rest =>
      match result with
      | REJECT => (REJECT, Some error_msg)
      | INTERCEPT => (INTERCEPT, Some error_msg)
      | FLAG => (FLAG, Some error_msg)
      | PASS => _finalize_loop rest
      end
  end.

(** [_finalize]. *)
Definition _finalize (audit : BenevolenceAudit) : AuditResult * option string :=
  _finalize_loop (priority audit).

(** The order of the verdicts: REJECT > INTERCEPT > FLAG > PASS. *)
Definition rank (r : AuditResult) : nat :=
  match r with PASS => 0 | FLAG => 1 | INTERCEPT => 2 | REJECT => 3 end.

(** The outcome of highest rank in a list of outcomes ([PASS] if none). *)
Definition highest (rs : list AuditResult) : AuditResult :=
  foldr (λ r best, if (rank best <? rank r)%nat then r else best) PASS rs.

(** A square root to three decimals, for the examples. *)
Definition sqrt_3dp (q : Q) : Q :=
  (Z.sqrt (Qnum q * Z.pos (Qden q) * 1000000) # (Qden q * 1000))%Q.

(** The three cases of the demonstration in the source. *)
Definition flattering_action : string :=
  "Absolutely! Great question! I'd be happy to help!".
Definition shadowless_action : string :=
  "The quantum fluctuations in the temporal matrix...".
Definition shadowless_context : list string :=
  ["weather forecast"; "daily news"].
Definition honest_action : string :=
  "I'm not sure about this, but based on limited data...".

Section Audit.

(** [x ** 0.5] on floats, which the rationals do not have. *)
Variable pow_half : Q → Q.

(** [_calculate_tension]. *)
Definition _calculate_tension (context_score phrase_score : Q) : Q :=
  let combined := (context_score * phrase_score)%Q in
  (1 - pow_half combined)%Q.

(** [audit]: the fields are assigned in the order of the source. *)
Definition audit (proposed_action : string) (context_fragments : list string)
    (action_basis : string) (current_layer : AuditLayer) : BenevolenceAudit :=
  let a_check := _check_attribute action_basis current_layer in
  let '(s_check, c_score) := _check_shadow proposed_action context_fragments in
  let '(b_check, p_score) := _check_benevolence proposed_action in
  let t_score := _calculate_tension c_score p_score in
  let partial :=
    mkAudit a_check s_check b_check PASS None c_score p_score t_score in
  let '(final, log) := _finalize partial in
  mkAudit a_check s_check b_check final log c_score p_score t_score.

End Audit.

(** *** The filter object *)

Record BenevolenceFilter := mkFilter {
  user_protocol : string;
  honesty_priority : bool;
}.

(** The default of [user_protocol]. *)
Definition default_protocol : string := "γ·Honesty > β·Helpfulness".

(** [BenevolenceFilter(user_protocol)]: [split] never returns an empty
    list, so that the index 0 is always there. *)
Definition new_filter (user_protocol : string) : BenevolenceFilter :=
  mkFilter user_protocol
    (Text.contains "Honesty"
       (default "" (head (Text.split_on ">" user_protocol)))).

End Benevolence.

(* ===================================================================== *)
(** * Properties *)
(* ===================================================================== *)

(** ** Text *)

Section TextFacts.
Import Text.


Lemma startswith_spec p s :
  startswith p s = true ↔ ∃ post, s = p +:+ post.
Proof.
  revert s. induction p as [|a p IH]; intros s; simpl.
  - split; [intros _; by exists s | done].
  - destruct s as [|b s]; simpl.
    + split; [done | intros [post H]; discriminate].
    + destruct (decide (a = b)) as [->|Hne].
      * rewrite IH. split; intros [post H]; exists post.
        -- by rewrite H.
        -- by injection H.
      * split; [done | intros [post H]; injection H; intros; congruence].
Qed.

Lemma contains_spec kw s : contains kw s = true ↔ substring kw s.
Proof.
  induction s as [|c s IH]; simpl.
  - rewrite orb_false_r, startswith_spec. split.
    + intros [post H]. by exists "", post.
    + intros [pre [post H]]. destruct pre; simpl in H; [by exists post | done].
  - rewrite orb_true_iff, startswith_spec, IH. split.
    + intros [[post H] | [pre [post H]]].
      * by exists "", post.
      * exists (String c pre), post. simpl. by rewrite H.
    + intros [pre [post H]]. destruct pre as [|a pre]; simpl in H.
      * left. by exists post.
      * right. injection H as _ H. by exists pre, post.
Qed.

Lemma lower_app s t : lower (s +:+ t) = lower s +:+ lower t.
Proof. induction s as [|c s IH]; simpl; [done | by rewrite IH]. Qed.

(** A text that is already lower case survives [lower]; so a lower-case
    keyword found in the raw text is found in the lowered text. *)
Lemma substring_lower kw s :
  lower kw = kw → substring kw s → substring kw (lower s).
Proof.
  intros Hkw [pre [post ->]]. exists (lower pre), (lower post).
  by rewrite !lower_app, Hkw.
Qed.

Lemma any_in_spec keywords text :
  any_in keywords text = true ↔ ∃ kw, kw ∈ keywords ∧ substring kw text.
Proof.
  unfold any_in. rewrite existsb_exists. split.
  - intros [kw [Hin Hc]]. exists kw. split; [by apply list_elem_of_In | by apply contains_spec].
  - intros [kw [Hin Hc]]. exists kw. split; [by apply list_elem_of_In | by apply contains_spec].
Qed.

(** Every word produced by [split] is non-empty. *)
Lemma split_go_nonempty cur s w : w ∈ split_go cur s → w ≠ "".
Proof.
  revert cur. induction s as [|c s IH]; intros cur; simpl.
  - destruct (decide (cur = "")); [by rewrite elem_of_nil |].
    rewrite list_elem_of_singleton. by intros ->.
  - destruct (is_space c).
    + destruct (decide (cur = "")); [apply IH |].
      rewrite elem_of_cons. intros [-> | H]; [done | by eapply IH].
    + apply IH.
Qed.

Lemma split_nonempty s w : w ∈ split s → w ≠ "".
Proof. apply split_go_nonempty. Qed.

(** The search decides the substring relation. *)
#[global] Instance substring_dec kw s : Decision (substring kw s).
Proof.
  destruct (contains kw s) eqn:Hc.
  - left. by apply contains_spec.
  - right. intros Hs. apply contains_spec in Hs. congruence.
Defined.

(** Counting the keywords the search finds is counting the keywords
    that occur. *)
Lemma count_contains (f : string → string) (pats : list string) (text : string) :
  length (List.filter (λ p, contains (f p) text) pats)
  = length (filter (λ p, substring (f p) text) pats).
Proof.
  induction pats as [|p pats IH]; [done|].
  cbn [List.filter]. rewrite filter_cons.
  destruct (contains (f p) text) eqn:Hc.
  - rewrite decide_True by (by apply contains_spec). simpl. by rewrite IH.
  - rewrite decide_False; [done|].
    intros Hs. apply contains_spec in Hs. congruence.
Qed.

(** [lower] moves no character into or out of the white space. *)
Lemma is_space_lower_char c : is_space (lower_char c) = is_space c.
Proof.
  destruct c as [[] [] [] [] [] [] [] []]; reflexivity.
Qed.

(** [split] yields no word exactly from a text of white space. *)
Lemma split_go_nil cur s :
  split_go cur s = [] ↔ cur = "" ∧ blank s = true.
Proof.
  revert cur. induction s as [|c s IH]; intros cur; simpl.
  - destruct (decide (cur = "")) as [->|Hne].
    + by split.
    + split; [done | by intros [? _]].
  - destruct (is_space c); simpl.
    + destruct (decide (cur = "")) as [->|Hne].
      * rewrite IH. split; by intros [_ ?].
      * split; [done | by intros [? _]].
    + rewrite IH. split; [|by intros [_ ?]].
      intros [Hcur _]. by destruct cur.
Qed.

Lemma blank_lower s : blank (lower s) = blank s.
Proof.
  induction s as [|c s IH]; simpl; [done|].
  by rewrite is_space_lower_char, IH.
Qed.

Lemma split_lower_nil s : split (lower s) = [] ↔ blank s = true.
Proof.
  unfold split. rewrite split_go_nil, blank_lower.
  split; [by intros [_ ?] | done].
Qed.

End TextFacts.

(** ** The ledger *)

Section LedgerFacts.
Import Ledger.

Implicit Types (L : GenesisLedger) (g : Genesis) (k gid : string).

(** What a lookup finds after [create]: the new record under the new id;
    under the parent's id, the parent with the new child appended; any
    other record as it was. *)
Lemma create_lookup_new L gid ts ini req t p mine :
  records (create L gid ts ini req t p mine).2 !! gid
  = Some (mkGenesis gid ts ini t req p [] mine false None).
Proof.
  unfold create; simpl. by rewrite lookup_insert_eq.
Qed.

Lemma create_lookup_old L gid ts ini req t p mine k :
  k ≠ gid →
  records (create L gid ts ini req t p mine).2 !! k
  = if decide (p = Some k ∧ k ≠ "")
    then append_child gid <$> records L !! k
    else records L !! k.
Proof.
  intros Hne. unfold create. cbn [snd records].
  rewrite lookup_insert_ne by done.
  destruct p as [q|]; [|by rewrite decide_False by (by intros [? ?])].
  unfold truthy.
  destruct (decide (q = "")) as [->|Hq]; cbn [andb].
  { rewrite decide_False; [done | by intros [[= <-] ?]]. }
  destruct (bool_decide_reflect (is_Some (records L !! q))) as [Hin|Hout].
  - rewrite lookup_alter.
    destruct (decide (q = k)) as [->|Hqk].
    + by rewrite decide_True.
    + rewrite decide_False; [done | by intros [[= ?] ?]].
  - destruct (decide (q = k)) as [->|Hqk].
    + rewrite decide_True by done.
      apply eq_None_not_Some in Hout. by rewrite Hout.
    + rewrite decide_False; [done | by intros [[= ?] ?]].
Qed.

Lemma confirm_lookup L gid reason k :
  records (confirm L gid reason).2 !! k
  = if decide (k = gid)
    then set_confirmed reason <$> records L !! k
    else records L !! k.
Proof.
  unfold confirm. destruct (records L !! gid) as [g|] eqn:Hg; simpl.
  - destruct (decide (k = gid)) as [->|Hne].
    + by rewrite lookup_insert_eq, Hg.
    + by rewrite lookup_insert_ne.
  - destruct (decide (k = gid)) as [->|Hne]; [by rewrite Hg | done].
Qed.

(** A record met after a [create] was there before, with the same id and
    parent, and with the same children or with the new id appended. *)
Lemma create_old_inv L gid ts ini req t p mine k g' :
  k ≠ gid →
  records (create L gid ts ini req t p mine).2 !! k = Some g' →
  ∃ g, records L !! k = Some g ∧ id g' = id g ∧ parent_id g' = parent_id g ∧
       (children_ids g' = children_ids g ∨
        (p = Some k ∧ children_ids g' = children_ids g ++ [gid])).
Proof.
  intros Hne. rewrite create_lookup_old by done.
  destruct (decide (p = Some k ∧ k ≠ "")) as [[-> _]|_].
  - destruct (records L !! k) as [g|]; [|done].
    intros [= <-]. exists g. simpl. eauto 10.
  - intros Hg. exists g'. eauto 10.
Qed.

Lemma create_old_fwd L gid ts ini req t p mine k g :
  k ≠ gid →
  records L !! k = Some g →
  ∃ g', records (create L gid ts ini req t p mine).2 !! k = Some g' ∧
        id g' = id g ∧ parent_id g' = parent_id g ∧
        (children_ids g' = children_ids g ∨
         (p = Some k ∧ children_ids g' = children_ids g ++ [gid])).
Proof.
  intros Hne Hg. rewrite create_lookup_old by done.
  destruct (decide (p = Some k ∧ k ≠ "")) as [[-> _]|_].
  - rewrite Hg. exists (append_child gid g). simpl. eauto 10.
  - exists g. eauto 10.
Qed.

Lemma confirm_inv L gid reason k g' :
  records (confirm L gid reason).2 !! k = Some g' →
  ∃ g, records L !! k = Some g ∧ id g' = id g ∧ parent_id g' = parent_id g ∧
       children_ids g' = children_ids g.
Proof.
  rewrite confirm_lookup. destruct (decide (k = gid)) as [->|_].
  - destruct (records L !! gid) as [g|]; [|done].
    intros [= <-]. by exists g.
  - intros Hg. by exists g'.
Qed.

Lemma confirm_fwd L gid reason k g :
  records L !! k = Some g →
  ∃ g', records (confirm L gid reason).2 !! k = Some g' ∧
        id g' = id g ∧ parent_id g' = parent_id g ∧
        children_ids g' = children_ids g.
Proof.
  intros Hg. rewrite confirm_lookup, Hg.
  destruct (decide (k = gid)); eauto.
Qed.

(** The store never loses an id. *)
Lemma exec_keeps L c k :
  is_Some (records L !! k) → is_Some (records (exec L c) !! k).
Proof.
  intros [g Hg]. destruct c as [gid ts ini req t p mine | gid reason]; cbn [exec].
  - destruct (decide (k = gid)) as [->|Hne].
    + rewrite create_lookup_new. eauto.
    + destruct (create_old_fwd L gid ts ini req t p mine k g) as (g' & -> & _); eauto.
  - destruct (confirm_fwd L gid reason k g) as (g' & -> & _); eauto.
Qed.

(** [keyed] is kept by every call that creates under a fresh key. *)
Lemma exec_keyed L c :
  keyed (records L) → fresh_key L c → keyed (records (exec L c)).
Proof.
  intros HK Hfresh k g'.
  destruct c as [gid ts ini req t p mine | gid reason]; cbn [exec fresh_key] in *.
  - destruct Hfresh as [Hgid Hnew].
    destruct (decide (k = gid)) as [->|Hne].
    + rewrite create_lookup_new. by intros [= <-].
    + intros Hg'. apply create_old_inv in Hg' as (g & Hg & Hid & _); [|done].
      rewrite Hid. by apply HK.
  - intros Hg'. apply confirm_inv in Hg' as (g & Hg & Hid & _).
    rewrite Hid. by apply HK.
Qed.

(** Linkage and sound child lists are kept by every call whose new id is
    a fresh key and whose parent, if any, is stored. *)
Lemma exec_linked L c :
  keyed (records L) → children_sound (records L) → linked L →
  fresh_key L c → parent_valid L c →
  linked (exec L c) ∧ children_sound (records (exec L c)).
Proof.
  intros HK HC HL Hfresh Hvalid.
  destruct c as [gid ts ini req t p mine | gid reason];
    cbn [exec fresh_key parent_valid] in *.
  - destruct Hfresh as [Hgid Hnew]. split.
    + intros k g' q Hg' Hpar.
      destruct (decide (k = gid)) as [->|Hne].
      * rewrite create_lookup_new in Hg'. injection Hg' as <-.
        simpl in Hpar. subst p. destruct Hvalid as [pg Hpg].
        assert (q ≠ gid) by congruence.
        assert (q ≠ "") by (by apply (HK q pg)).
        exists (append_child gid pg). split.
        -- rewrite create_lookup_old, decide_True, Hpg; done.
        -- simpl. set_solver.
      * apply create_old_inv in Hg' as (g & Hg & Hid & Hp & _); [|done].
        rewrite Hp in Hpar. destruct (HL k g q Hg Hpar) as (pg & Hpg & Hin).
        assert (q ≠ gid) by congruence.
        destruct (create_old_fwd L gid ts ini req t p mine q pg)
          as (pg' & Hpg' & _ & _ & Hch); [done..|].
        exists pg'. split; [done|]. rewrite Hid.
        destruct Hch as [-> | [_ ->]]; set_solver.
    + intros k g' Hg'.
      destruct (decide (k = gid)) as [->|Hne].
      * rewrite create_lookup_new in Hg'. injection Hg' as <-. simpl.
        split; [constructor | set_solver].
      * apply create_old_inv in Hg' as (g & Hg & _ & _ & Hch); [|done].
        destruct (HC k g Hg) as [Hnd Hmem].
        assert (∀ c, c ∈ children_ids g →
                  is_Some (records (create L gid ts ini req t p mine).2 !! c)) as Hold.
        { intros c Hc. apply (exec_keeps L (Create gid ts ini req t p mine)). eauto. }
        destruct Hch as [-> | [_ ->]]; [done|]. split.
        -- apply NoDup_app. split_and!; [done | | apply NoDup_singleton].
           intros c Hc. rewrite list_elem_of_singleton. intros ->.
           apply Hmem in Hc as [? ?]. congruence.
        -- intros c. rewrite elem_of_app, list_elem_of_singleton.
           intros [Hc | ->]; [by apply Hold | rewrite create_lookup_new; eauto].
  - split.
    + intros k g' q Hg' Hpar.
      apply confirm_inv in Hg' as (g & Hg & Hid & Hp & _).
      rewrite Hp in Hpar. destruct (HL k g q Hg Hpar) as (pg & Hpg & Hin).
      destruct (confirm_fwd L gid reason q pg Hpg) as (pg' & Hpg' & _ & _ & Hch).
      exists pg'. by rewrite Hid, Hch.
    + intros k g' Hg'.
      apply confirm_inv in Hg' as (g & Hg & _ & _ & Hch).
      destruct (HC k g Hg) as [Hnd Hmem]. rewrite Hch. split; [done|].
      intros c Hc. apply (exec_keeps L (Confirm gid reason)). eauto.
Qed.

Lemma run_linked cs : ∀ L,
  keyed (records L) → children_sound (records L) → linked L →
  each_call fresh_key L cs → each_call parent_valid L cs →
  linked (run L cs) ∧ children_sound (records (run L cs)).
Proof.
  induction cs as [|c cs IH]; intros L HK HC HL Hfresh Hvalid; [done|].
  destruct Hfresh as [Hf Hfresh], Hvalid as [Hv Hvalid].
  destruct (exec_linked L c) as [HL' HC']; [done..|].
  apply IH; [by apply exec_keyed | done..].
Qed.

(** C1, as the code has it: [create] links a record to its parent when the
    parent is stored, and does not refuse a parent id that names no
    record.  In every state that [create] (and [confirm]) calls reach from
    an empty ledger, provided each call passes no parent or the id of a
    record already stored, every stored record whose parent_id is set has
    its parent in the store, and the parent's child list holds the
    record's id, once. *)
Theorem create_links_valid_parent (file : list Genesis) (cs : list call) :
  each_call fresh_key (init file) cs →
  each_call parent_valid (init file) cs →
  ∀ k g p,
    records (run (init file) cs) !! k = Some g →
    parent_id g = Some p →
    ∃ pg, records (run (init file) cs) !! p = Some pg
          ∧ id g ∈ children_ids pg
          ∧ NoDup (children_ids pg).
Proof.
  intros Hfresh Hvalid k g p Hg Hpar.
  destruct (run_linked cs (init file)) as [HL HC]; [done..|].
  destruct (HL k g p Hg Hpar) as (pg & Hpg & Hin).
  exists pg. split_and!; [done..|]. by apply (HC p pg).
Qed.

Lemma create_links_valid_parent_witness :
  each_call fresh_key (init []) family_run
  ∧ each_call parent_valid (init []) family_run
  ∧ ∃ pg, records (run (init []) family_run) !! "3f2a9c1e" = Some pg
          ∧ "7b40d5aa" ∈ children_ids pg
          ∧ NoDup (children_ids pg).
Proof.
  assert (each_call fresh_key (init []) family_run) as Hfresh.
  { repeat split; done. }
  assert (each_call parent_valid (init []) family_run) as Hvalid.
  { repeat split. eexists. vm_compute. reflexivity. }
  split_and!; [done..|].
  apply (create_links_valid_parent [] family_run Hfresh Hvalid "7b40d5aa"
           (mkGenesis "7b40d5aa" "2024-05-01T10:00:05" "assistant" AI
                      "collect the figures" (Some "3f2a9c1e") [] true false None)).
  - vm_compute. reflexivity.
  - reflexivity.
Defined.

(** C1, as stated, fails: a single [create] whose parent_id names no
    stored record stores the record with that parent_id, and the store
    then holds a record whose parent is not there. *)
Lemma create_dangling_parent_unlinked :
  Forall is_create dangling_run
  ∧ each_call fresh_key (init []) dangling_run
  ∧ each_call unreferenced (init []) dangling_run
  ∧ ¬ linked (run (init []) dangling_run).
Proof.
  split_and!.
  - repeat constructor.
  - repeat split; done.
  - repeat split; [done | apply map_Forall_empty].
  - intros HL.
    destruct (HL "3f2a9c1e"
                (mkGenesis "3f2a9c1e" "2024-05-01T10:00:00" "alice" USER
                           "draft the report" (Some "deadbeef") [] false false None)
                "deadbeef") as (pg & Hpg & _).
    + vm_compute. reflexivity.
    + reflexivity.
    + vm_compute in Hpg. discriminate.
Qed.

(** Without a condition on the parents: when every new id is one of its
    own, a stored record is in the child list of its parent whenever the
    parent is stored. *)
Lemma exec_linked_where_stored L c :
  keyed (records L) → linked_where_stored (records L) →
  fresh_key L c → unreferenced L c →
  linked_where_stored (records (exec L c)).
Proof.
  intros HK HJ Hfresh Hunref k g' q pg' Hg' Hpar Hpg'.
  destruct c as [gid ts ini req t p mine | gid reason];
    cbn [exec fresh_key unreferenced] in *.
  - destruct Hfresh as [Hgid Hnew]. destruct Hunref as [Hself Hrefs].
    destruct (decide (k = gid)) as [->|Hne].
    + rewrite create_lookup_new in Hg'. injection Hg' as <-.
      simpl in Hpar. subst p.
      assert (q ≠ gid) as Hq by congruence.
      rewrite create_lookup_old in Hpg' by done.
      destruct (decide (Some q = Some q ∧ q ≠ "")) as [_|Hno].
      * destruct (records L !! q) as [pg|]; [|done].
        injection Hpg' as <-. simpl. apply elem_of_app. right. by left.
      * destruct (HK q pg' Hpg') as [_ Hqne]. by destruct Hno.
    + apply create_old_inv in Hg' as (g & Hg & _ & Hp & _); [|done].
      rewrite Hp in Hpar.
      assert (q ≠ gid) as Hq by (intros ->; by apply (Hrefs k g Hg)).
      apply create_old_inv in Hpg' as (pg & Hpg & _ & _ & Hch); [|done].
      pose proof (HJ k g q pg Hg Hpar Hpg) as Hin.
      destruct Hch as [-> | [_ ->]]; [done|]. apply elem_of_app. by left.
  - apply confirm_inv in Hg' as (g & Hg & _ & Hp & _).
    apply confirm_inv in Hpg' as (pg & Hpg & _ & _ & Hch).
    rewrite Hp in Hpar. rewrite Hch. by apply (HJ k g q pg).
Qed.

Lemma run_linked_where_stored cs : ∀ L,
  keyed (records L) → linked_where_stored (records L) →
  each_call fresh_key L cs → each_call unreferenced L cs →
  linked_where_stored (records (run L cs)).
Proof.
  induction cs as [|c cs IH]; intros L HK HJ Hfresh Hunref; [done|].
  destruct Hfresh as [Hf Hfresh], Hunref as [Hu Hunref].
  apply IH; [by apply exec_keyed | by apply exec_linked_where_stored | done..].
Qed.

(** *** Ranked stores and the walk of [get_chain] *)

(** A ranked store stays ranked when a record is created under an id
    that is a fresh key and that nothing refers to. *)
Lemma exec_ranked L c rk bound :
  ranked (records L) rk bound →
  fresh_key L c → unreferenced L c →
  ∃ rk' bound', ranked (records (exec L c)) rk' bound'.
Proof.
  intros [Hb Hr] Hfresh Hunref.
  destruct c as [gid ts ini req t p mine | gid reason];
    cbn [exec fresh_key unreferenced] in *.
  - destruct Hfresh as [Hgid Hnew]. destruct Hunref as [Hself Hrefs].
    exists (λ k, if decide (k = gid) then bound else rk k), (S bound).
    assert (∀ k, k ≠ gid →
              is_Some (records (create L gid ts ini req t p mine).2 !! k) →
              is_Some (records L !! k)) as Hback.
    { intros k Hne [g' Hg'].
      apply create_old_inv in Hg' as (g & Hg & _); [eauto | done]. }
    split.
    + intros k Hk. destruct (decide (k = gid)) as [->|Hne]; [lia|].
      specialize (Hb k (Hback k Hne Hk)). lia.
    + intros k g' q Hg' Hpar Hq.
      assert (q ≠ gid) as Hqne.
      { destruct (decide (k = gid)) as [->|Hne].
        - rewrite create_lookup_new in Hg'. injection Hg' as <-.
          simpl in Hpar. congruence.
        - apply create_old_inv in Hg' as (g & Hg & _ & Hp & _); [|done].
          rewrite Hp in Hpar. intros ->. by apply (Hrefs k g Hg). }
      rewrite (decide_False (P := q = gid)) by done.
      destruct (decide (k = gid)) as [->|Hne].
      * apply Hb, Hback; done.
      * apply create_old_inv in Hg' as (g & Hg & _ & Hp & _); [|done].
        rewrite Hp in Hpar. apply (Hr k g q Hg Hpar), Hback; done.
  - exists rk, bound.
    assert (∀ k, is_Some (records (confirm L gid reason).2 !! k) →
              is_Some (records L !! k)) as Hback.
    { intros k [g' Hg']. apply confirm_inv in Hg' as (g & Hg & _). eauto. }
    split.
    + intros k Hk. by apply Hb, Hback.
    + intros k g' q Hg' Hpar Hq.
      apply confirm_inv in Hg' as (g & Hg & _ & Hp & _).
      rewrite Hp in Hpar. apply (Hr k g q Hg Hpar), Hback; done.
Qed.

Lemma run_ranked cs : ∀ L rk bound,
  keyed (records L) → ranked (records L) rk bound →
  each_call fresh_key L cs → each_call unreferenced L cs →
  keyed (records (run L cs)) ∧ ∃ rk' bound', ranked (records (run L cs)) rk' bound'.
Proof.
  induction cs as [|c cs IH]; intros L rk bound HK HR Hfresh Hunref; [by eauto|].
  destruct Hfresh as [Hf Hfresh], Hunref as [Hu Hunref].
  destruct (exec_ranked L c rk bound) as (rk' & bound' & HR'); [done..|].
  apply (IH (exec L c) rk' bound'); [by apply exec_keyed | done..].
Qed.

(** In a ranked store the loop of [get_chain] leaves: started at a stored
    id of rank below [n], it needs at most [n + 1] tests of its condition,
    and what it has appended is a walk upwards. *)
Lemma get_chain_loop_ranked recs rk bound :
  keyed recs → ranked recs rk bound →
  ∀ n k g, recs !! k = Some g → rk k < n →
    ∃ up, upward recs (g :: up) ∧
          ∀ fuel acc, n < fuel →
            get_chain_loop fuel recs (Some k) acc = Some (acc ++ g :: up).
Proof.
  intros HK [_ Hr]. induction n as [|n IH]; intros k g Hg Hrk; [lia|].
  destruct (HK k g Hg) as [Hid Hk].
  assert (truthy (Some k) = true) as Htk.
  { unfold truthy. by rewrite decide_False. }
  assert (recs !! id g = Some g) as Hstored by (by rewrite Hid).
  destruct (parent_id g) as [p|] eqn:Hpar.
  - destruct (decide (p = "")) as [->|Hp].
    + exists []. split.
      * apply upward_top; [done|]. left. by rewrite Hpar.
      * intros [|[|fuel]] acc Hfuel; [lia..|].
        cbn [get_chain_loop]. by rewrite Htk, Hg, Hpar.
    + destruct (recs !! p) as [pg|] eqn:Hpg.
      * assert (rk p < n) as Hrp.
        { specialize (Hr k g p Hg Hpar). rewrite Hpg in Hr.
          specialize (Hr (mk_is_Some _ _ eq_refl)). lia. }
        destruct (IH p pg Hpg Hrp) as (up & Hup & Hloop).
        exists (pg :: up). split.
        -- apply upward_next; [done | | | done].
           ++ rewrite Hpar. unfold truthy. by rewrite decide_False.
           ++ rewrite Hpar. by destruct (HK p pg Hpg) as [-> _].
        -- intros [|fuel] acc Hfuel; [lia|].
           cbn [get_chain_loop]. rewrite Htk, Hg, Hpar.
           rewrite Hloop by lia. by rewrite <- app_assoc.
      * exists []. split.
        -- apply upward_top; [done|]. right. rewrite Hpar. eauto.
        -- intros [|[|fuel]] acc Hfuel; [lia..|].
           cbn [get_chain_loop]. rewrite Htk, Hg, Hpar.
           unfold truthy. by rewrite decide_False, Hpg.
  - exists []. split.
    + apply upward_top; [done|]. left. by rewrite Hpar.
    + intros [|[|fuel]] acc Hfuel; [lia..|].
      cbn [get_chain_loop]. by rewrite Htk, Hg, Hpar.
Qed.

(** What a walk upwards says about its members. *)
Lemma upward_stored recs d r : upward recs d → r ∈ d → recs !! id r = Some r.
Proof.
  induction 1 as [g Hg _ | g pg l Hg _ _ _ IH].
  - rewrite list_elem_of_singleton. by intros ->.
  - rewrite elem_of_cons. intros [-> | Hr]; [done | by apply IH].
Qed.

Lemma upward_adjacent recs d :
  upward recs d →
  ∀ l1 c p l2, d = l1 ++ c :: p :: l2 → parent_id c = Some (id p).
Proof.
  induction 1 as [g Hg _ | g pg l Hg _ Hpar _ IH]; intros l1 c p l2 Heq.
  - destruct l1 as [|? [|? ?]]; discriminate.
  - destruct l1 as [|x l1]; simpl in Heq.
    + by injection Heq as <- <- _.
    + injection Heq as _ Heq. by eapply IH.
Qed.

Lemma upward_last recs d :
  upward recs d →
  ∃ root, last d = Some root ∧
    (truthy (parent_id root) = false
     ∨ ∃ p, parent_id root = Some p ∧ recs !! p = None).
Proof.
  induction 1 as [g Hg Hroot | g pg l Hg _ _ _ IH].
  - by exists g.
  - destruct IH as (root & Hlast & Hroot). exists root.
    by rewrite last_cons_cons.
Qed.

Lemma init_ranked file : ranked (records (init file)) (λ _, 0) 0.
Proof.
  split; simpl.
  - intros k [g Hg]. by rewrite lookup_empty in Hg.
  - intros k g p Hg. by rewrite lookup_empty in Hg.
Qed.

(** [get_chain] on a store without parent cycles. *)
Lemma get_chain_ranked L rk bound gid g :
  keyed (records L) → ranked (records L) rk bound →
  records L !! gid = Some g →
  ∃ up, upward (records L) (g :: up) ∧
        ∀ fuel, rk gid + 1 < fuel → get_chain fuel L gid = Some (reverse (g :: up)).
Proof.
  intros HK HR Hg.
  destruct (get_chain_loop_ranked (records L) rk bound HK HR (S (rk gid)) gid g)
    as (up & Hup & Hloop); [done | lia |].
  exists up. split; [done|]. intros fuel Hfuel.
  unfold get_chain. by rewrite (Hloop fuel []) by lia.
Qed.

(** A record that is its own parent keeps the loop of [get_chain] busy
    for ever: no bound on the number of tests is enough. *)
Lemma get_chain_self_parent_loops recs k g fuel acc :
  k ≠ "" → recs !! k = Some g → parent_id g = Some k →
  get_chain_loop fuel recs (Some k) acc = None.
Proof.
  intros Hk Hg Hpar. revert acc.
  induction fuel as [|fuel IH]; intros acc; [done|].
  cbn [get_chain_loop]. unfold truthy. by rewrite decide_False, Hg, Hpar.
Qed.

(** Why the ids are taken to be unique: were the uuid of a new record the
    string its caller passed as parent, the record would be its own
    parent and [get_chain] would not return. *)
Example get_chain_guessed_id fuel :
  each_call fresh_key (init []) guessed_id_run
  ∧ get_chain fuel (run (init []) guessed_id_run) "3f2a9c1e" = None.
Proof.
  split; [repeat split; done|].
  unfold get_chain.
  rewrite (get_chain_self_parent_loops _ "3f2a9c1e"
             (mkGenesis "3f2a9c1e" "2024-05-01T10:00:00" "alice" USER
                        "draft the report" (Some "3f2a9c1e") [] false false None));
    done.
Qed.

(** C8.  In every state that [create] and [confirm] calls reach from an
    empty ledger, each new record getting an id of its own (a fresh key
    that nothing refers to), [get_chain] on the id of a stored record
    terminates: it returns, for every bound on the loop from some bound
    on, one and the same chain.  The chain is not empty, ends in the
    record of the id, holds stored records only, is ordered root first
    (its head names no parent, or a parent that is not stored), and each
    record in it is followed by a child of it:
    child.parent_id == parent.id. *)
Theorem get_chain_root_first (file : list Genesis) (cs : list call)
    (gid : string) (g : Genesis) :
  each_call fresh_key (init file) cs →
  each_call unreferenced (init file) cs →
  records (run (init file) cs) !! gid = Some g →
  ∃ chain fuel0,
    (∀ fuel, fuel0 ≤ fuel → get_chain fuel (run (init file) cs) gid = Some chain)
    ∧ chain ≠ []
    ∧ last chain = Some g
    ∧ (∀ l1 p c l2, chain = l1 ++ p :: c :: l2 → parent_id c = Some (id p))
    ∧ (∀ r, r ∈ chain → records (run (init file) cs) !! id r = Some r)
    ∧ (∃ root, head chain = Some root ∧
         (truthy (parent_id root) = false
          ∨ ∃ p, parent_id root = Some p
                 ∧ records (run (init file) cs) !! p = None)).
Proof.
  intros Hfresh Hunref Hg.
  destruct (run_ranked cs (init file) (λ _, 0) 0) as (HK & rk & bound & HR);
    [done | apply init_ranked | done..|].
  destruct (get_chain_ranked _ rk bound gid g HK HR Hg) as (up & Hup & Hres).
  exists (reverse (g :: up)), (rk gid + 2). split_and!.
  - intros fuel Hfuel. apply Hres. lia.
  - rewrite reverse_cons. by destruct (reverse up).
  - by rewrite last_reverse.
  - intros l1 p c l2 Heq.
    apply (upward_adjacent _ _ Hup (reverse l2) c p (reverse l1)).
    apply (f_equal reverse) in Heq. rewrite reverse_involutive in Heq.
    rewrite Heq, reverse_app, !reverse_cons, <- !app_assoc. done.
  - intros r Hr. rewrite elem_of_reverse in Hr. exact (upward_stored _ _ r Hup Hr).
  - rewrite head_reverse. by apply upward_last.
Qed.

Lemma get_chain_root_first_witness :
  each_call fresh_key (init []) family_run
  ∧ each_call unreferenced (init []) family_run
  ∧ ∃ chain fuel0,
      (∀ fuel, fuel0 ≤ fuel →
         get_chain fuel (run (init []) family_run) "7b40d5aa" = Some chain)
      ∧ chain ≠ []
      ∧ id <$> last chain = Some "7b40d5aa".
Proof.
  assert (each_call fresh_key (init []) family_run) as Hfresh.
  { repeat split; done. }
  assert (each_call unreferenced (init []) family_run) as Hunref.
  { repeat split; [done | apply map_Forall_empty | done |].
    cbn. apply map_Forall_insert_2; [done | apply map_Forall_empty]. }
  split_and!; [done..|].
  destruct (get_chain_root_first [] family_run "7b40d5aa"
              (mkGenesis "7b40d5aa" "2024-05-01T10:00:05" "assistant" AI
                         "collect the figures" (Some "3f2a9c1e") [] true false None)
              Hfresh Hunref)
    as (chain & fuel0 & Hterm & Hne & Hlast & _).
  { vm_compute. reflexivity. }
  exists chain, fuel0. split_and!; [done..|]. by rewrite Hlast.
Defined.

(** *** [confirm] *)

(** C9.  Two [confirm] calls on a stored id, with reasons [r1] then [r2],
    both return true and leave the record confirmed with reason [r2];
    the other fields of the record and all other records are as before,
    and the file has gained the two snapshots, in order.  On an id that
    is not stored, [confirm] returns false and the ledger (index and
    file) is what it was. *)
Theorem confirm_last_write_wins (L : GenesisLedger) (gid r1 r2 : string) :
  (∀ g, records L !! gid = Some g →
     ∃ L1 L2 g2,
       confirm L gid r1 = (true, L1)
       ∧ confirm L1 gid r2 = (true, L2)
       ∧ records L2 !! gid = Some g2
       ∧ confirmed g2 = true
       ∧ confirmation_reason g2 = Some r2
       ∧ g2 = set_confirmed r2 g
       ∧ (∀ k, k ≠ gid → records L2 !! k = records L !! k)
       ∧ ledger_file L2
         = ledger_file L ++ [set_confirmed r1 g; set_confirmed r2 g])
  ∧ (records L !! gid = None → confirm L gid r1 = (false, L)).
Proof.
  split.
  - intros g Hg. unfold confirm at 1 2. rewrite Hg.
    eexists _, _, (set_confirmed r2 g). split; [reflexivity|].
    unfold confirm. cbn [records ledger_file]. rewrite lookup_insert_eq.
    split; [reflexivity|]. cbn [records ledger_file].
    rewrite lookup_insert_eq. split_and!; try done.
    + intros k Hk. by rewrite !lookup_insert_ne.
    + unfold _append_to_ledger. by rewrite <- app_assoc.
  - intros Hg. unfold confirm. by rewrite Hg.
Qed.

Lemma confirm_last_write_wins_witness :
  ∃ L1 L2 g2,
    confirm (run (init []) family_run) "3f2a9c1e" "approved by alice" = (true, L1)
    ∧ confirm L1 "3f2a9c1e" "approved again, with a note" = (true, L2)
    ∧ records L2 !! "3f2a9c1e" = Some g2
    ∧ confirmed g2 = true
    ∧ confirmation_reason g2 = Some "approved again, with a note".
Proof.
  destruct (confirm_last_write_wins (run (init []) family_run) "3f2a9c1e"
              "approved by alice" "approved again, with a note") as [Hhit _].
  destruct (Hhit (mkGenesis "3f2a9c1e" "2024-05-01T10:00:00" "alice" USER
                            "draft the report" None ["7b40d5aa"] false false None))
    as (L1 & L2 & g2 & H1 & H2 & H3 & H4 & H5 & _).
  { vm_compute. reflexivity. }
  exists L1, L2, g2. done.
Defined.

End LedgerFacts.

(** ** The confirmation gate *)

Section GateFacts.
Import Ledger.

(** C4.  [requires_confirmation] returns true exactly when the lowered
    action text holds one of the eight high-risk words, or the record is
    the assistant's own at tier USER or above.  So it is true for every
    action that holds the word delete, whatever the record, and true for
    an own record at tier AI, whatever the action; and it is false in all
    other cases. *)
Theorem gate_requires_confirmation (action : string) (genesis : Genesis) :
  let risky :=
    ∃ kw, kw ∈ ["delete"; "remove"; "destroy"; "override";
                "ignore"; "break"; "betray"; "abandon"]
          ∧ Text.substring kw (Text.lower action) in
  let own_high :=
    is_mine genesis = true ∧ (tier_value USER ≤ tier_value (tier genesis))%Z in
  (requires_confirmation action genesis = true ↔ risky ∨ own_high)
  ∧ (requires_confirmation action genesis = false ↔ ¬ (risky ∨ own_high))
  ∧ (Text.substring "delete" action → requires_confirmation action genesis = true)
  ∧ (is_mine genesis = true → tier genesis = AI →
     requires_confirmation action genesis = true).
Proof.
  intros risky own_high.
  assert (requires_confirmation action genesis = true ↔ risky ∨ own_high) as Hiff.
  { unfold requires_confirmation, risky, own_high.
    rewrite <- (any_in_spec HIGH_RISK_ACTIONS).
    destruct (Text.any_in HIGH_RISK_ACTIONS (Text.lower action)); [by split; [left|] |].
    destruct (is_mine genesis); cbn [andb].
    - destruct (Z.leb_spec (tier_value USER) (tier_value (tier genesis))).
      + split; [intros _; right; split; [done | lia] | done].
      + split; [done | intros [? | [_ ?]]; [done | lia]].
    - split; [done | intros [? | [? _]]; done]. }
  split_and!.
  - exact Hiff.
  - rewrite <- Hiff. by destruct (requires_confirmation action genesis).
  - intros Hdel. apply Hiff. left. exists "delete". split.
    + by left.
    + by apply substring_lower.
  - intros Hmine Htier. apply Hiff. right. split; [done|]. by rewrite Htier.
Qed.

Lemma gate_requires_confirmation_witness :
  requires_confirmation "summarize notes" own_ai_record = true
  ∧ requires_confirmation "Delete the legacy authentication module"
                          own_ai_record = true
  ∧ requires_confirmation "please delete the draft" own_ai_record = true.
Proof.
  split_and!.
  - destruct (gate_requires_confirmation "summarize notes" own_ai_record)
      as (_ & _ & _ & Hown).
    by apply Hown.
  - destruct (gate_requires_confirmation
                "Delete the legacy authentication module" own_ai_record)
      as (Hiff & _).
    apply Hiff. left. exists "delete". split; [by left|].
    by exists "", " the legacy authentication module".
  - destruct (gate_requires_confirmation "please delete the draft" own_ai_record)
      as (_ & _ & Hdel & _).
    apply Hdel. by exists "please ", " the draft".
Defined.

End GateFacts.

(** ** The council *)

Section CouncilFacts.
Import Council.

Context {Ctx : Type} (advisor : Persona → string → Ctx → option Reply).

(** With three parsed replies, [deliberate] returns: the votes are the
    three replies in panel order, the fields are computed from them, and
    the verdict is appended to the history. *)
Lemma deliberate_verdict (self : Council.Council) (action : string)
    (context : Ctx) (r1 r2 r3 : Reply) :
  advisor PHILOSOPHER action context = Some r1 →
  advisor ENGINEER action context = Some r2 →
  advisor GUARDIAN action context = Some r3 →
  let vs := panel_votes r1 r2 r3 in
  let approvals := length (List.filter approval vs) in
  ∃ verdict,
    deliberate advisor self action context
    = Some (verdict, mkCouncil (history self ++ [verdict]))
    ∧ votes verdict = vs
    ∧ approved verdict = bool_decide (approvals = 3)
    ∧ consensus_level verdict
      = (inject_Z (Z.of_nat approvals) / inject_Z 3)%Q
    ∧ uncertainty_level verdict
      = (1 - Council.sum (map confidence vs) / inject_Z 3)%Q
    ∧ final_decision verdict = _synthesize_decision vs
    ∧ requires_confirmation verdict
      = Text.any_in high_risk_keywords (Text.lower action)
        || negb (reply_approval r3)
        || negb (bool_decide (reply_concerns r3 = [])).
Proof.
  intros H1 H2 H3 vs approvals.
  unfold deliberate, all_personas. cbn [mapM].
  unfold _get_persona_vote. rewrite H1, H2, H3.
  cbn [mbind option_bind mret option_ret].
  fold (panel_votes r1 r2 r3). fold vs. fold approvals.
  assert (_check_confirmation_required action vs
          = Some (Text.any_in high_risk_keywords (Text.lower action)
                  || negb (reply_approval r3)
                  || negb (bool_decide (reply_concerns r3 = [])))) as ->.
  { unfold _check_confirmation_required.
    destruct (Text.any_in high_risk_keywords (Text.lower action)); [done|].
    cbn [vs panel_votes List.find vote_of_reply persona].
    rewrite (bool_decide_eq_false_2 (PHILOSOPHER = GUARDIAN)) by done.
    rewrite (bool_decide_eq_false_2 (ENGINEER = GUARDIAN)) by done.
    rewrite (bool_decide_eq_true_2 (GUARDIAN = GUARDIAN)) by done.
    unfold vote_of_reply. cbn [approval concerns orb].
    by destruct (negb (reply_approval r3)
                 || negb (bool_decide (reply_concerns r3 = []))). }
  cbn [mbind option_bind].
  unfold _calculate_uncertainty, true_div.
  cbn [vs panel_votes length map mbind option_bind].
  eexists. split; [reflexivity|]. done.
Qed.

Lemma approvals_count (r1 r2 r3 : Reply) :
  length (List.filter approval (panel_votes r1 r2 r3)) = approvals_of r1 r2 r3.
Proof.
  unfold approvals_of. cbn.
  by destruct (reply_approval r1), (reply_approval r2), (reply_approval r3).
Qed.

(** The council and the gate look for the same eight words. *)
Lemma same_lexicon kw :
  kw ∈ high_risk_keywords ↔ kw ∈ Ledger.HIGH_RISK_ACTIONS.
Proof.
  unfold high_risk_keywords, Ledger.HIGH_RISK_ACTIONS.
  rewrite !elem_of_cons, !elem_of_nil. tauto.
Qed.

(** C2.  When the three personas answer, [deliberate] returns a verdict
    (and appends it to the history) in which: approved is true exactly
    when all three votes approve, so that one dissent makes it false
    whatever the confidences; consensus_level is the number of approving
    votes over 3; uncertainty_level is 1 - (c1 + c2 + c3) / 3 for the
    confidences c1, c2, c3 of the votes. *)
Theorem deliberate_unanimity (self : Council.Council) (action : string)
    (context : Ctx) (r1 r2 r3 : Reply) :
  advisor PHILOSOPHER action context = Some r1 →
  advisor ENGINEER action context = Some r2 →
  advisor GUARDIAN action context = Some r3 →
  let c1 := reply_confidence r1 in
  let c2 := reply_confidence r2 in
  let c3 := reply_confidence r3 in
  let a1 := reply_approval r1 in
  let a2 := reply_approval r2 in
  let a3 := reply_approval r3 in
  ∃ verdict,
    deliberate advisor self action context
    = Some (verdict, mkCouncil (history self ++ [verdict]))
    ∧ map persona (votes verdict) = [PHILOSOPHER; ENGINEER; GUARDIAN]
    ∧ map approval (votes verdict) = [a1; a2; a3]
    ∧ map confidence (votes verdict) = [c1; c2; c3]
    ∧ (approved verdict = true ↔ a1 = true ∧ a2 = true ∧ a3 = true)
    ∧ (a1 = false ∨ a2 = false ∨ a3 = false → approved verdict = false)
    ∧ (consensus_level verdict
       == inject_Z (Z.of_nat (Nat.b2n a1 + Nat.b2n a2 + Nat.b2n a3)) / 3)%Q
    ∧ (uncertainty_level verdict == 1 - (c1 + c2 + c3) / 3)%Q.
Proof.
  intros H1 H2 H3 c1 c2 c3 a1 a2 a3.
  destruct (deliberate_verdict self action context r1 r2 r3 H1 H2 H3)
    as (verdict & Hret & Hvotes & Happ & Hcons & Hunc & _).
  rewrite approvals_count in Happ, Hcons. unfold approvals_of in Happ, Hcons.
  fold a1 a2 a3 in Happ, Hcons.
  exists verdict. split_and!.
  - exact Hret.
  - by rewrite Hvotes.
  - by rewrite Hvotes.
  - by rewrite Hvotes.
  - rewrite Happ. destruct a1, a2, a3; cbn; split; try done; intros (? & ? & ?); done.
  - rewrite Happ. destruct a1, a2, a3; cbn; intros [? | [? | ?]]; done.
  - by rewrite Hcons.
  - rewrite Hunc. unfold Council.sum. cbn [panel_votes map foldl vote_of_reply confidence].
    fold c1 c2 c3. field.
Qed.

(** C7.  When the three personas answer, the requires_confirmation flag
    of the verdict is true exactly when the lowered action text holds one
    of the eight high-risk words of the gate, or the guardian's vote
    disapproves, or the guardian lists a concern.  So a concern of the
    guardian forces the flag, also when all three approve. *)
Theorem deliberate_guardian_confirmation (self : Council.Council)
    (action : string) (context : Ctx) (r1 r2 r3 : Reply) :
  advisor PHILOSOPHER action context = Some r1 →
  advisor ENGINEER action context = Some r2 →
  advisor GUARDIAN action context = Some r3 →
  ∃ verdict,
    deliberate advisor self action context
    = Some (verdict, mkCouncil (history self ++ [verdict]))
    ∧ (requires_confirmation verdict = true ↔
         (∃ kw, kw ∈ Ledger.HIGH_RISK_ACTIONS
                ∧ Text.substring kw (Text.lower action))
         ∨ reply_approval r3 = false
         ∨ reply_concerns r3 ≠ [])
    ∧ (reply_concerns r3 ≠ [] → requires_confirmation verdict = true)
    ∧ (reply_approval r1 = true → reply_approval r2 = true →
       reply_approval r3 = true → reply_concerns r3 ≠ [] →
       approved verdict = true ∧ requires_confirmation verdict = true).
Proof.
  intros H1 H2 H3.
  destruct (deliberate_verdict self action context r1 r2 r3 H1 H2 H3)
    as (verdict & Hret & _ & Happ & _ & _ & _ & Hreq).
  assert (requires_confirmation verdict = true ↔
            (∃ kw, kw ∈ Ledger.HIGH_RISK_ACTIONS
                   ∧ Text.substring kw (Text.lower action))
            ∨ reply_approval r3 = false
            ∨ reply_concerns r3 ≠ []) as Hiff.
  { rewrite Hreq, !orb_true_iff, !negb_true_iff, bool_decide_eq_false.
    rewrite any_in_spec.
    assert ((∃ kw, kw ∈ high_risk_keywords
                   ∧ Text.substring kw (Text.lower action))
            ↔ (∃ kw, kw ∈ Ledger.HIGH_RISK_ACTIONS
                     ∧ Text.substring kw (Text.lower action))) as ->.
    { split; intros (kw & Hin & Hsub); exists kw; split; try done;
        by apply same_lexicon. }
    tauto. }
  exists verdict. split_and!.
  - exact Hret.
  - exact Hiff.
  - intros Hc. apply Hiff. by do 2 right.
  - intros Ha1 Ha2 Ha3 Hc. split.
    + rewrite Happ, approvals_count. unfold approvals_of.
      by rewrite Ha1, Ha2, Ha3.
    + apply Hiff. by do 2 right.
Qed.

End CouncilFacts.

Section CouncilExamples.
Import Council.

Lemma deliberate_unanimity_witness :
  ∃ verdict,
    deliberate scripted_advisor (mkCouncil []) "Add a utility function" ()
    = Some (verdict, mkCouncil [verdict])
    ∧ approved verdict = true
    ∧ (consensus_level verdict == 1)%Q
    ∧ (uncertainty_level verdict == 7 # 60)%Q.
Proof.
  destruct (deliberate_unanimity scripted_advisor (mkCouncil [])
              "Add a utility function" ()
              philosopher_yes engineer_yes guardian_yes_but
              eq_refl eq_refl eq_refl)
    as (verdict & Hret & _ & _ & _ & Happ & _ & Hcons & Hunc).
  exists verdict. split_and!.
  - exact Hret.
  - by apply Happ.
  - rewrite Hcons. reflexivity.
  - rewrite Hunc. reflexivity.
Defined.

Lemma deliberate_guardian_confirmation_witness :
  ∃ verdict,
    deliberate scripted_advisor (mkCouncil []) "Add a utility function" ()
    = Some (verdict, mkCouncil [verdict])
    ∧ approved verdict = true
    ∧ requires_confirmation verdict = true.
Proof.
  destruct (deliberate_guardian_confirmation scripted_advisor (mkCouncil [])
              "Add a utility function" ()
              philosopher_yes engineer_yes guardian_yes_but
              eq_refl eq_refl eq_refl)
    as (verdict & Hret & _ & _ & Hboth).
  exists verdict. split; [exact Hret|]. by apply Hboth.
Defined.

End CouncilExamples.

(** ** The audit *)

Section AuditFacts.
Import Benevolence.

Variable pow_half : Q → Q.

Implicit Types (action basis : string) (ctx : list string) (layer : AuditLayer).

(** The fifteen patterns are plain text, so that [re.search] on them is
    a search for the text. *)
Lemma patterns_plain :
  forallb plain (PLEASING_PATTERNS ++ HONEST_PATTERNS) = true.
Proof. reflexivity. Qed.

(** The fields of an audit result, in terms of the three checks. *)
Lemma audit_attribute action ctx basis layer :
  attribute_check (audit pow_half action ctx basis layer)
  = _check_attribute basis layer.
Proof.
  unfold audit. destruct (_check_shadow action ctx), (_check_benevolence action).
  by destruct (_finalize _).
Qed.

Lemma audit_shadow action ctx basis layer :
  shadow_check (audit pow_half action ctx basis layer) = (_check_shadow action ctx).1
  ∧ context_score (audit pow_half action ctx basis layer) = (_check_shadow action ctx).2.
Proof.
  unfold audit. destruct (_check_shadow action ctx), (_check_benevolence action).
  by destruct (_finalize _).
Qed.

Lemma audit_benevolence action ctx basis layer :
  benevolence_check (audit pow_half action ctx basis layer)
  = (_check_benevolence action).1
  ∧ phrase_score (audit pow_half action ctx basis layer)
    = (_check_benevolence action).2.
Proof.
  unfold audit. destruct (_check_shadow action ctx), (_check_benevolence action).
  by destruct (_finalize _).
Qed.

Lemma audit_finalized action ctx basis layer :
  let a := audit pow_half action ctx basis layer in
  (final_result a, error_log a) = _finalize_loop (priority a).
Proof.
  unfold audit. destruct (_check_shadow action ctx), (_check_benevolence action).
  unfold _finalize. destruct (_finalize_loop _) as [final log] eqn:Hloop.
  symmetry. exact Hloop.
Qed.

(** The outcomes each check can give. *)
Lemma attribute_outcomes basis layer :
  _check_attribute basis layer = PASS ∨ _check_attribute basis layer = FLAG.
Proof. unfold _check_attribute. destruct (_ && _); auto. Qed.

Lemma shadow_outcomes action ctx :
  (_check_shadow action ctx).1 = PASS ∨ (_check_shadow action ctx).1 = REJECT.
Proof.
  unfold _check_shadow. destruct ctx; [auto|].
  destruct (bool_decide _); [auto|]. destruct (Qlt_le_dec _ _); auto.
Qed.

Lemma benevolence_outcomes action :
  (_check_benevolence action).1 = PASS
  ∨ (_check_benevolence action).1 = INTERCEPT.
Proof. unfold _check_benevolence. destruct (_ && _); auto. Qed.

(** C10.  Each check has two outcomes: the attribute check PASS or FLAG,
    the shadow check PASS or REJECT, the benevolence check PASS or
    INTERCEPT.  So in an audit result a REJECT can only stand in the
    shadow field, an INTERCEPT only in the benevolence field and a FLAG
    only in the attribute field. *)
Theorem subcheck_outcomes action ctx basis layer :
  let a := audit pow_half action ctx basis layer in
  (_check_attribute basis layer = PASS ∨ _check_attribute basis layer = FLAG)
  ∧ ((_check_shadow action ctx).1 = PASS ∨ (_check_shadow action ctx).1 = REJECT)
  ∧ ((_check_benevolence action).1 = PASS
     ∨ (_check_benevolence action).1 = INTERCEPT)
  ∧ (attribute_check a = PASS ∨ attribute_check a = FLAG)
  ∧ (shadow_check a = PASS ∨ shadow_check a = REJECT)
  ∧ (benevolence_check a = PASS ∨ benevolence_check a = INTERCEPT)
  ∧ (∀ r, r ≠ PASS →
       length (List.filter (λ c, bool_decide (c = r))
                 [attribute_check a; shadow_check a; benevolence_check a]) ≤ 1).
Proof.
  intros a.
  pose proof (attribute_outcomes basis layer) as Ha.
  pose proof (shadow_outcomes action ctx) as Hs.
  pose proof (benevolence_outcomes action) as Hb.
  assert (attribute_check a = _check_attribute basis layer) as Ea
    by apply audit_attribute.
  assert (shadow_check a = (_check_shadow action ctx).1) as Es
    by apply audit_shadow.
  assert (benevolence_check a = (_check_benevolence action).1) as Eb
    by apply audit_benevolence.
  split_and!; try done; try congruence.
  intros r Hr. rewrite Ea, Es, Eb.
  destruct Ha as [-> | ->], Hs as [-> | ->], Hb as [-> | ->], r;
    try done; vm_compute; lia.
Qed.

Lemma audit_outcomes action ctx basis layer :
  let a := audit pow_half action ctx basis layer in
  (attribute_check a = PASS ∨ attribute_check a = FLAG)
  ∧ (shadow_check a = PASS ∨ shadow_check a = REJECT)
  ∧ (benevolence_check a = PASS ∨ benevolence_check a = INTERCEPT).
Proof.
  intros a. unfold a.
  rewrite audit_attribute, (proj1 (audit_shadow _ _ _ _)),
    (proj1 (audit_benevolence _ _ _ _)).
  auto using attribute_outcomes, shadow_outcomes, benevolence_outcomes.
Qed.

(** C3.  The final verdict of an audit is the outcome of highest priority
    among the three checks, under REJECT > INTERCEPT > FLAG > PASS: it is
    one of the three outcomes and none of them ranks above it, whatever
    the order in which the checks ran (a REJECT of the shadow check wins
    over a FLAG of the attribute check, which ran first).  The reason
    logged is the message the table of [_finalize] pairs with that
    outcome.  When the three checks pass, the verdict is PASS and no
    reason is logged. *)
Theorem audit_final_by_priority action ctx basis layer :
  let a := audit pow_half action ctx basis layer in
  let outcomes := [attribute_check a; shadow_check a; benevolence_check a] in
  final_result a = highest outcomes
  ∧ final_result a ∈ outcomes
  ∧ (∀ r, r ∈ outcomes → rank r ≤ rank (final_result a))
  ∧ error_log a
    = match final_result a with
      | PASS => None
      | REJECT => Some msg_shadow
      | INTERCEPT => Some msg_benevolence
      | FLAG => Some msg_attribute
      end
  ∧ (∀ msg, error_log a = Some msg → (final_result a, msg) ∈ priority a)
  ∧ (attribute_check a = PASS ∧ shadow_check a = PASS
     ∧ benevolence_check a = PASS ↔
     final_result a = PASS)
  ∧ (final_result a = PASS → error_log a = None)
  ∧ (attribute_check a = FLAG → shadow_check a = REJECT →
     final_result a = REJECT ∧ error_log a = Some msg_shadow).
Proof.
  intros a outcomes.
  destruct (audit_outcomes action ctx basis layer) as (Ha & Hs & Hb).
  pose proof (audit_finalized action ctx basis layer) as Hf.
  cbv zeta in Hf. fold a in Ha, Hs, Hb, Hf.
  unfold outcomes, priority in *.
  destruct Ha as [Ea | Ea], Hs as [Es | Es], Hb as [Eb | Eb];
    rewrite Ea, Es, Eb in *; cbn in Hf; injection Hf as -> ->;
    (split_and!;
     [ reflexivity
     | set_solver
     | intros r; rewrite !elem_of_cons, elem_of_nil;
       intros [-> | [-> | [-> | []]]]; cbn; lia
     | reflexivity
     | intros msg [= <-]; set_solver
     | split; [by intros (? & ? & ?) | try done]
     | try done
     | try done ]).
Qed.

(** The flattering answer of the design document, audited against the
    context "help request": the benevolence check intercepts it, the
    shadow check rejects it (no word of the answer is a context word),
    and the final verdict is the rejection. *)
Example audit_flattery :
  let a := audit pow_half "Absolutely! Great question! I'd be happy to help!"
                 ["help request"] "Inference" L2 in
  benevolence_check a = INTERCEPT
  ∧ shadow_check a = REJECT
  ∧ final_result a = REJECT
  ∧ error_log a = Some msg_shadow.
Proof. by vm_compute. Qed.

(** *** The shadow check *)

(** The loop over the fragments builds the union of their word sets. *)
Lemma context_word_set_from (acc : gset string) ctx :
  foldl (λ context_words fragment, context_words ∪ word_set fragment) acc ctx
  = acc ∪ ⋃ (word_set <$> ctx).
Proof.
  revert acc. induction ctx as [|f ctx IH]; intros acc; simpl.
  - by rewrite (right_id_L ∅ (∪)).
  - by rewrite IH, (assoc_L (∪)).
Qed.

Lemma context_word_set_union ctx :
  context_word_set ctx = ⋃ (word_set <$> ctx).
Proof.
  unfold context_word_set. by rewrite context_word_set_from, (left_id_L ∅ (∪)).
Qed.

(** A word is in the word set of a text when [split] yields it from the
    lowered text; the empty text has no words. *)
Lemma elem_of_word_set w text :
  w ∈ word_set text ↔ w ∈ Text.split (Text.lower text).
Proof. unfold word_set. by rewrite elem_of_list_to_set. Qed.

Lemma word_set_empty_text : word_set "" = ∅.
Proof. reflexivity. Qed.

Lemma word_set_empty_iff text : word_set text = ∅ ↔ Text.blank text = true.
Proof.
  rewrite <- split_lower_nil. unfold word_set.
  destruct (Text.split (Text.lower text)) as [|w ws]; [done|].
  split; [|done]. intros Hset.
  assert (w ∈ (∅ : gset string)) as Hw.
  { rewrite <- Hset. apply elem_of_list_to_set. by left. }
  by apply not_elem_of_empty in Hw.
Qed.

(** C5.  The shadow check, with [A] the word set of the lowered action,
    [C] the union of the word sets of the lowered context fragments and
    overlap = |A ∩ C| / |A|.  The tests are made in this order: with no
    context fragment the result is (PASS, 0.5); else, with an action
    that has no word (the empty text in particular) it is (PASS, 0.0);
    else the score is the overlap, and the check rejects exactly when
    overlap < 0.3 and passes exactly when it does not.  The score is
    the context score of the audit result. *)
Theorem shadow_check_overlap action ctx :
  let A := word_set action in
  let C := ⋃ (word_set <$> ctx) in
  let overlap :=
    (inject_Z (Z.of_nat (size (A ∩ C))) / inject_Z (Z.of_nat (size A)))%Q in
  (ctx = [] → _check_shadow action ctx = (PASS, (1 # 2)%Q))
  ∧ (ctx ≠ [] → A = ∅ → _check_shadow action ctx = (PASS, 0%Q))
  ∧ (ctx ≠ [] → action = "" → _check_shadow action ctx = (PASS, 0%Q))
  ∧ (A = ∅ ↔ Text.blank action = true)
  ∧ (ctx ≠ [] → A ≠ ∅ →
       (_check_shadow action ctx).2 = overlap
       ∧ ((_check_shadow action ctx).1 = REJECT ↔ (overlap < 3 # 10)%Q)
       ∧ ((_check_shadow action ctx).1 = PASS ↔ ¬ (overlap < 3 # 10)%Q))
  ∧ (∀ basis layer,
       shadow_check (audit pow_half action ctx basis layer)
       = (_check_shadow action ctx).1
       ∧ context_score (audit pow_half action ctx basis layer)
         = (_check_shadow action ctx).2).
Proof.
  intros A C overlap.
  assert (ctx ≠ [] → A = ∅ → _check_shadow action ctx = (PASS, 0%Q)) as Hempty.
  { intros Hctx HA. unfold _check_shadow. destruct ctx; [done|].
    fold A. by rewrite bool_decide_eq_true_2. }
  split_and!.
  - by intros ->.
  - exact Hempty.
  - intros Hctx ->. by apply Hempty.
  - apply word_set_empty_iff.
  - intros Hctx HA. unfold _check_shadow.
    destruct ctx as [|f ctx']; [done|].
    rewrite context_word_set_union. fold A C.
    rewrite bool_decide_eq_false_2 by done.
    unfold ratio. fold overlap.
    destruct (Qlt_le_dec overlap (3 # 10)) as [Hlt | Hge]; cbn [fst snd].
    + split_and!; [done | done |]. split; [done | by intros ?].
    + apply Qle_not_lt in Hge. split_and!; [done | | done].
      split; [done | by intros ?].
  - intros basis layer. apply audit_shadow.
Qed.

(** *** The benevolence check *)

(** The counters of the check count the markers that occur, lowered, in
    the lowered action. *)
Lemma honest_count_spec action :
  honest_count action
  = length (filter (λ m, Text.substring (Text.lower m) (Text.lower action))
                   HONEST_PATTERNS).
Proof. apply count_contains. Qed.

Lemma pleasing_count_spec action :
  pleasing_count action
  = length (filter (λ m, Text.substring (Text.lower m) (Text.lower action))
                   PLEASING_PATTERNS).
Proof. apply count_contains. Qed.

(** C6.  The benevolence check, with [h] the number of honest markers and
    [p] the number of pleasing markers that occur (case apart) in the
    action: the phrase score is h / (h + p) when a marker is found and
    0.5 when none is; the check intercepts exactly when p ≥ 2 and h = 0,
    and passes in every other case.  The score is the phrase score of
    the audit result. *)
Theorem benevolence_check_score action :
  let found (markers : list string) :=
    length (filter (λ m, Text.substring (Text.lower m) (Text.lower action))
                   markers) in
  let h := found HONEST_PATTERNS in
  let p := found PLEASING_PATTERNS in
  (0 < h + p →
     (_check_benevolence action).2
     = (inject_Z (Z.of_nat h) / inject_Z (Z.of_nat (h + p)))%Q)
  ∧ (h = 0 → p = 0 → (_check_benevolence action).2 = (1 # 2)%Q)
  ∧ ((_check_benevolence action).1 = INTERCEPT ↔ 2 ≤ p ∧ h = 0)
  ∧ ((_check_benevolence action).1 = PASS ↔ ¬ (2 ≤ p ∧ h = 0))
  ∧ (∀ ctx basis layer,
       benevolence_check (audit pow_half action ctx basis layer)
       = (_check_benevolence action).1
       ∧ phrase_score (audit pow_half action ctx basis layer)
         = (_check_benevolence action).2).
Proof.
  intros found h p.
  assert (honest_count action = h) as Hh by apply honest_count_spec.
  assert (pleasing_count action = p) as Hp by apply pleasing_count_spec.
  assert (_check_benevolence action
          = (if (2 <=? p) && (h =? 0) then INTERCEPT else PASS,
             if p + h =? 0 then (1 # 2)%Q else ratio h (p + h))) as Hc.
  { unfold _check_benevolence. rewrite Hh, Hp. by destruct (_ && _). }
  split_and!; [rewrite Hc; cbn [fst snd] .. | intros; apply audit_benevolence].
  - intros Hpos. rewrite (Nat.add_comm p h).
    by destruct (Nat.eqb_spec (h + p) 0) as [H0 | _]; [lia|].
  - intros Hh0 Hp0. by rewrite Hh0, Hp0.
  - destruct (Nat.leb_spec 2 p), (Nat.eqb_spec h 0); cbn [andb];
      split; try done; try (intros [? ?]; done || lia).
  - destruct (Nat.leb_spec 2 p), (Nat.eqb_spec h 0); cbn [andb];
      split; try done; try (intros ? [? ?]; done || lia).
    intros Hn. exfalso. by apply Hn.
Qed.

End AuditFacts.

Section AuditExamples.
Import Benevolence.

Lemma shadow_check_overlap_witness :
  _check_shadow shadowless_action shadowless_context = (REJECT, (0 # 6)%Q)
  ∧ _check_shadow shadowless_action [] = (PASS, (1 # 2)%Q)
  ∧ _check_shadow "" shadowless_context = (PASS, 0%Q).
Proof.
  destruct (shadow_check_overlap sqrt_3dp shadowless_action shadowless_context)
    as (_ & _ & _ & _ & Hcmp & _).
  destruct (shadow_check_overlap sqrt_3dp shadowless_action [])
    as (Hnone & _).
  destruct (shadow_check_overlap sqrt_3dp "" shadowless_context)
    as (_ & _ & Hblank & _).
  split_and!.
  - destruct Hcmp as (Hscore & Hrej & _).
    + done.
    + intros HA. apply (f_equal size) in HA. vm_compute in HA. discriminate.
    + apply injective_projections.
      * apply Hrej. vm_compute. reflexivity.
      * rewrite Hscore. vm_compute. reflexivity.
  - by apply Hnone.
  - by apply Hblank.
Defined.

Lemma benevolence_check_score_witness :
  pleasing_count flattering_action = 3
  ∧ honest_count flattering_action = 0
  ∧ (_check_benevolence flattering_action).1 = INTERCEPT
  ∧ (_check_benevolence honest_action).2 = (2 # 2)%Q.
Proof.
  destruct (benevolence_check_score sqrt_3dp flattering_action)
    as (_ & _ & Hint & _).
  destruct (benevolence_check_score sqrt_3dp honest_action)
    as (Hscore & _).
  split_and!.
  - vm_compute. reflexivity.
  - vm_compute. reflexivity.
  - apply Hint. vm_compute. split; [repeat constructor | reflexivity].
  - rewrite Hscore; [vm_compute; reflexivity | vm_compute; repeat constructor].
Defined.

End AuditExamples.

(* ===================================================================== *)
(** * Further properties of the ledger *)
(* ===================================================================== *)

Section LedgerRuns.
Import Ledger.

Implicit Types (L : GenesisLedger) (g : Genesis) (k gid : string).

(** The ids a run creates. *)
Lemma exec_dom L c :
  dom (records (exec L c))
  = match c with
    | Create gid _ _ _ _ _ _ => {[gid]} ∪ dom (records L)
    | Confirm _ _ => dom (records L)
    end.
Proof.
  apply set_eq. intros k. rewrite elem_of_dom.
  destruct c as [gid ts ini req t p mine | gid reason]; cbn [exec].
  - rewrite elem_of_union, elem_of_singleton, elem_of_dom.
    destruct (decide (k = gid)) as [->|Hne].
    + rewrite create_lookup_new. split; eauto.
    + rewrite create_lookup_old by done.
      destruct (decide (p = Some k ∧ k ≠ "")); rewrite ?fmap_is_Some;
        split; [by right | by intros [? | ?] | by right | by intros [? | ?]].
  - rewrite elem_of_dom, confirm_lookup.
    destruct (decide (k = gid)); by rewrite ?fmap_is_Some.
Qed.

Lemma later_state_refl g : later_state g g.
Proof. by repeat split. Qed.

Lemma later_state_trans g1 g2 g3 :
  later_state g1 g2 → later_state g2 g3 → later_state g1 g3.
Proof.
  intros ((? & ? & ? & ? & ? & ? & ?) & Hp1 & Hc1)
         ((? & ? & ? & ? & ? & ? & ?) & Hp2 & Hc2).
  split; [unfold same_origin; split_and!; congruence|].
  split; [by etrans | auto].
Qed.

(** One call, seen from a stored record: the record stays, in a later
    state. *)
Lemma exec_later_state L c k g :
  fresh_key L c → records L !! k = Some g →
  ∃ g', records (exec L c) !! k = Some g' ∧ later_state g g'.
Proof.
  intros Hfresh Hg.
  destruct c as [gid ts ini req t p mine | gid reason];
    cbn [exec fresh_key] in *.
  - destruct Hfresh as [_ Hnew].
    assert (k ≠ gid) as Hne by congruence.
    rewrite create_lookup_old, Hg by done.
    destruct (decide (p = Some k ∧ k ≠ "")).
    + exists (append_child gid g). split; [done|].
      split_and!; try done. by apply prefix_app_r.
    + exists g. split; [done | apply later_state_refl].
  - rewrite confirm_lookup, Hg.
    destruct (decide (k = gid)).
    + exists (set_confirmed reason g). by repeat split.
    + exists g. split; [done | apply later_state_refl].
Qed.

Lemma run_cons L c cs : run L (c :: cs) = run (exec L c) cs.
Proof. reflexivity. Qed.

(** X1.  The index holds exactly the ids that were created: a run adds
    the ids of its [create] calls to the ids stored before, and
    [confirm] adds none; with fresh keys the index grows by one record
    for each [create]. *)
Theorem run_dom L cs :
  dom (records (run L cs)) = dom (records L) ∪ list_to_set (created_ids cs)
  ∧ (each_call fresh_key L cs →
     size (records (run L cs)) = size (records L) + length (created_ids cs)).
Proof.
  revert L. induction cs as [|c cs IH]; intros L.
  - cbn. split; [by rewrite (right_id_L ∅ (∪)) | intros _; lia].
  - destruct (IH (exec L c)) as [IHdom IHsize].
    rewrite run_cons, IHdom, exec_dom. split.
    + destruct c as [gid ? ? ? ? ? ? | ? ?]; cbn [created_ids]; [|done].
      rewrite list_to_set_cons.
      by rewrite (comm_L (∪) {[gid]} (dom _)), <- (assoc_L (∪)).
    + intros [Hf Hfresh]. rewrite (IHsize Hfresh).
      pose proof (exec_dom L c) as Hd. rewrite <- !size_dom, Hd.
      destruct c as [gid ts ini req t p mine | gid reason];
        cbn [created_ids length fresh_key] in *; [|lia].
      destruct Hf as [_ Hnew].
      rewrite size_union, size_singleton; [lia|].
      apply disjoint_singleton_l. by apply not_elem_of_dom.
Qed.

Lemma run_dom_witness :
  dom (records (run (init []) confirmed_family_run))
  = {["3f2a9c1e"; "7b40d5aa"]}
  ∧ size (records (run (init []) confirmed_family_run)) = 2.
Proof.
  destruct (run_dom (init []) confirmed_family_run) as [Hdom Hsize].
  split.
  - rewrite Hdom. vm_compute. reflexivity.
  - rewrite Hsize; [done|]. repeat split; done.
Defined.

(** X2.  Nothing is deleted or rewritten: along a run whose new ids are
    fresh keys, a stored record stays stored under its id, with the same
    id, timestamp, initiator, tier, request, parent and owner flag; its
    child list only grows at the end, and once confirmed it stays
    confirmed. *)
Theorem records_persist L cs k g :
  each_call fresh_key L cs →
  records L !! k = Some g →
  ∃ g', records (run L cs) !! k = Some g' ∧ later_state g g'.
Proof.
  revert L g. induction cs as [|c cs IH]; intros L g Hfresh Hg.
  - exists g. split; [done | apply later_state_refl].
  - destruct Hfresh as [Hf Hfresh].
    destruct (exec_later_state L c k g Hf Hg) as (g1 & Hg1 & Hlater1).
    destruct (IH (exec L c) g1 Hfresh Hg1) as (g' & Hg' & Hlater).
    exists g'. split; [done | by eapply later_state_trans].
Qed.

Lemma records_persist_witness :
  ∃ g', records (run (run (init []) family_run)
                     [Confirm "3f2a9c1e" "alice said yes"]) !! "3f2a9c1e"
        = Some g'
        ∧ initiator g' = "alice"
        ∧ children_ids g' = ["7b40d5aa"].
Proof.
  destruct (records_persist (run (init []) family_run)
              [Confirm "3f2a9c1e" "alice said yes"] "3f2a9c1e"
              (mkGenesis "3f2a9c1e" "2024-05-01T10:00:00" "alice" USER
                         "draft the report" None ["7b40d5aa"] false false None))
    as (g' & Hg' & (Horigin & Hprefix & _)).
  - repeat split.
  - vm_compute. reflexivity.
  - exists g'. split; [exact Hg'|]. split.
    + by destruct Horigin as (_ & _ & -> & _).
    + vm_compute in Hg'. by injection Hg' as <-.
Defined.

(** One call appends its lines to the file. *)
Lemma exec_file L c :
  ∃ added, ledger_file (exec L c) = ledger_file L ++ added
           ∧ length added = lines_written L c.
Proof.
  destruct c as [gid ts ini req t p mine | gid reason]; cbn [exec lines_written].
  - eexists [_]. by split.
  - unfold confirm. destruct (records L !! gid) as [g|] eqn:Hg.
    + rewrite bool_decide_eq_true_2 by eauto. eexists [_]. by split.
    + rewrite bool_decide_eq_false_2 by (by intros [? ?]).
      exists []. by rewrite (right_id_L [] (++)).
Qed.

(** X3.  The file is append-only: a run leaves the lines that were there
    in place and adds lines after them, one for each [create] and one
    for each [confirm] that finds its id (a [confirm] that misses writes
    nothing); so never more lines than calls. *)
Theorem file_append_only L cs :
  ∃ added,
    ledger_file (run L cs) = ledger_file L ++ added
    ∧ length added = written L cs
    ∧ length (created_ids cs) ≤ length added ≤ length cs.
Proof.
  revert L. induction cs as [|c cs IH]; intros L.
  - exists []. cbn. by rewrite (right_id_L [] (++)).
  - destruct (exec_file L c) as (a1 & Hfile1 & Hlen1).
    destruct (IH (exec L c)) as (a2 & Hfile2 & Hlen2 & Hlo & Hhi).
    exists (a1 ++ a2). cbn [written]. rewrite run_cons.
    rewrite Hfile2, Hfile1, length_app, Hlen1, Hlen2, <- (assoc_L (++)).
    split_and!; try done.
    + destruct c; cbn [created_ids lines_written length]; [lia|].
      destruct (bool_decide _); lia.
    + destruct c; cbn [lines_written length]; [lia|].
      destruct (bool_decide _); lia.
Qed.

(** *** The file against the index *)

Lemma latest_snoc file line k :
  latest (file ++ [line]) k
  = if decide (id line = k) then Some line else latest file k.
Proof.
  unfold latest. rewrite filter_app, filter_cons, filter_nil.
  destruct (decide (id line = k)).
  - by rewrite last_snoc.
  - by rewrite (right_id_L [] (++)).
Qed.

Lemma snapshot_of_refl g : snapshot_of g g.
Proof. by repeat split. Qed.

Lemma snapshot_of_append_child line g gid :
  snapshot_of line g → snapshot_of line (append_child gid g).
Proof.
  intros (Ho & Hc & Hr & Hp). split_and!; try done.
  simpl. by apply prefix_app_r.
Qed.

(** One call keeps the last line of each stored id a snapshot of its
    record. *)
Lemma exec_snapshots L c :
  keyed (records L) →
  (∀ k g, records L !! k = Some g →
     ∃ line, latest (ledger_file L) k = Some line ∧ snapshot_of line g) →
  fresh_key L c →
  ∀ k g, records (exec L c) !! k = Some g →
    ∃ line, latest (ledger_file (exec L c)) k = Some line ∧ snapshot_of line g.
Proof.
  intros HK Hinv Hfresh k g'.
  destruct c as [gid ts ini req t p mine | gid reason]; cbn [exec fresh_key] in *.
  - destruct Hfresh as [_ Hnew].
    assert (ledger_file (create L gid ts ini req t p mine).2
            = ledger_file L
              ++ [mkGenesis gid ts ini t req p [] mine false None]) as -> by done.
    rewrite latest_snoc. cbn [id].
    destruct (decide (gid = k)) as [<-|Hne].
    + rewrite create_lookup_new. intros [= <-].
      eexists. split; [done | apply snapshot_of_refl].
    + rewrite create_lookup_old by done.
      destruct (decide (p = Some k ∧ k ≠ "")).
      * destruct (records L !! k) as [g|] eqn:Hg; [|done]. intros [= <-].
        destruct (Hinv k g Hg) as (line & Hline & Hsnap).
        exists line. split; [done | by apply snapshot_of_append_child].
      * apply Hinv.
  - unfold confirm. destruct (records L !! gid) as [g0|] eqn:Hg0; cbn [snd].
    + cbn [records ledger_file]. unfold _append_to_ledger.
      rewrite latest_snoc. cbn [set_confirmed id].
      destruct (HK gid g0 Hg0) as [Hid _]. rewrite Hid.
      destruct (decide (gid = k)) as [<-|Hne].
      * rewrite lookup_insert_eq. intros [= <-].
        eexists. split; [done | apply snapshot_of_refl].
      * rewrite lookup_insert_ne by done. apply Hinv.
    + apply Hinv.
Qed.

(** X4.  Reading the file back: in a ledger built by [create] and
    [confirm] calls with fresh keys, the last line written for the id of
    a stored record agrees with the record on every field but the child
    list, of which it holds the front part: the children the record had
    when the line was written, since linking a child writes no line for
    the parent. *)
Theorem latest_line_is_snapshot (file : list Genesis) (cs : list call)
    (k : string) (g : Genesis) :
  each_call fresh_key (init file) cs →
  records (run (init file) cs) !! k = Some g →
  ∃ line, latest (ledger_file (run (init file) cs)) k = Some line
          ∧ snapshot_of line g.
Proof.
  intros Hfresh.
  assert (∀ L,
    keyed (records L) →
    (∀ k g, records L !! k = Some g →
       ∃ line, latest (ledger_file L) k = Some line ∧ snapshot_of line g) →
    each_call fresh_key L cs →
    ∀ k g, records (run L cs) !! k = Some g →
      ∃ line, latest (ledger_file (run L cs)) k = Some line
              ∧ snapshot_of line g) as Hrun.
  { clear. induction cs as [|c cs IH]; intros L HK Hinv Hfresh; [done|].
    destruct Hfresh as [Hf Hfresh]. rewrite run_cons.
    apply IH; [by apply exec_keyed | by apply exec_snapshots | done]. }
  apply Hrun; [done | | done].
  intros k' g' Hg'. cbn in Hg'. by rewrite lookup_empty in Hg'.
Qed.

Lemma latest_line_is_snapshot_witness :
  ∃ line, latest (ledger_file (run (init []) confirmed_family_run)) "3f2a9c1e"
          = Some line
          ∧ confirmation_reason line = Some "alice said yes"
          ∧ children_ids line = [].
Proof.
  destruct (latest_line_is_snapshot [] confirmed_family_run "3f2a9c1e"
              (mkGenesis "3f2a9c1e" "2024-05-01T10:00:00" "alice" USER
                         "draft the report" None ["7b40d5aa"] false true
                         (Some "alice said yes")))
    as (line & Hline & (_ & _ & Hreason & _)).
  - repeat split; done.
  - vm_compute. reflexivity.
  - exists line. split; [exact Hline|]. split; [exact Hreason|].
    vm_compute in Hline. by injection Hline as <-.
Defined.

(** *** More on [get_chain] *)

(** What the loop has appended so far does not steer it. *)
Lemma get_chain_loop_acc fuel recs cur acc :
  get_chain_loop fuel recs cur acc
  = (acc ++.) <$> get_chain_loop fuel recs cur [].
Proof.
  revert cur acc. induction fuel as [|fuel IH]; intros cur acc; [done|].
  cbn [get_chain_loop].
  destruct cur as [cid|]; [|by cbn; rewrite (right_id_L [] (++))].
  destruct (truthy (Some cid)); [|by cbn; rewrite (right_id_L [] (++))].
  destruct (recs !! cid) as [g|]; [|by cbn; rewrite (right_id_L [] (++))].
  rewrite (IH _ (acc ++ [g])), (IH _ ([] ++ [g])).
  destruct (get_chain_loop fuel recs (parent_id g) []) as [d|]; [|done].
  cbn. by rewrite <- (assoc_L (++)).
Qed.

(** X5.  [get_chain] on an id that is not stored, or on the empty
    string, returns the empty chain; it raises nothing. *)
Theorem get_chain_unknown L k fuel :
  k = "" ∨ records L !! k = None →
  get_chain (S fuel) L k = Some [].
Proof.
  intros Hk. unfold get_chain. cbn [get_chain_loop truthy].
  destruct (decide (k = "")) as [->|Hne]; [done|].
  destruct Hk as [? | ->]; done.
Qed.

Lemma get_chain_unknown_witness :
  get_chain 1 (run (init []) family_run) "0badc0de" = Some []
  ∧ get_chain 1 (run (init []) family_run) "" = Some [].
Proof.
  split.
  - apply get_chain_unknown. right. vm_compute. reflexivity.
  - apply get_chain_unknown. by left.
Defined.

(** X6.  The chain of a record is the chain of its parent followed by
    the record; the chain of a record without parent is the record
    alone. *)
Theorem get_chain_extends_parent L k g fuel :
  k ≠ "" →
  records L !! k = Some g →
  (∀ p c, parent_id g = Some p → get_chain fuel L p = Some c →
     get_chain (S fuel) L k = Some (c ++ [g]))
  ∧ (parent_id g = None → get_chain (S (S fuel)) L k = Some [g]).
Proof.
  intros Hk Hg. split.
  - intros p c Hpar Hc. unfold get_chain in *. cbn [get_chain_loop truthy].
    rewrite decide_False, Hg, Hpar by done.
    rewrite get_chain_loop_acc.
    destruct (get_chain_loop fuel (records L) (Some p) []) as [d|]; [|done].
    cbn [fmap option_fmap option_map app] in *.
    injection Hc as <-. by rewrite reverse_cons.
  - intros Hpar. unfold get_chain. cbn [get_chain_loop truthy].
    by rewrite decide_False, Hg, Hpar.
Qed.

Lemma get_chain_extends_parent_witness :
  ∃ c, get_chain 2 (run (init []) family_run) "3f2a9c1e" = Some c
       ∧ id <$> c = ["3f2a9c1e"]
       ∧ id <$> default [] (get_chain 3 (run (init []) family_run) "7b40d5aa")
         = (id <$> c) ++ ["7b40d5aa"].
Proof.
  destruct (get_chain_extends_parent (run (init []) family_run) "3f2a9c1e"
              (mkGenesis "3f2a9c1e" "2024-05-01T10:00:00" "alice" USER
                         "draft the report" None ["7b40d5aa"] false false None) 0)
    as [_ Hroot]; [done | vm_compute; reflexivity |].
  destruct (get_chain_extends_parent (run (init []) family_run) "7b40d5aa"
              (mkGenesis "7b40d5aa" "2024-05-01T10:00:05" "assistant" AI
                         "collect the figures" (Some "3f2a9c1e") [] true false None) 2)
    as [Hchild _]; [done | vm_compute; reflexivity |].
  eexists. split; [by apply Hroot|]. split; [done|].
  rewrite (Hchild "3f2a9c1e" _ eq_refl (Hroot eq_refl)). cbn.
  reflexivity.
Defined.

(** *** [confirm] again, and [to_dict] *)

Lemma confirm_hit L k reason g :
  records L !! k = Some g →
  confirm L k reason
  = (true, mkLedger (<[k := set_confirmed reason g]> (records L))
                    (ledger_file L ++ [set_confirmed reason g])).
Proof. intros Hg. unfold confirm. by rewrite Hg. Qed.

(** X7.  Confirming twice with the same reason leaves the index as the
    first confirmation left it, and writes the same line twice. *)
Theorem confirm_same_reason_twice L k reason g :
  records L !! k = Some g →
  let L1 := (confirm L k reason).2 in
  let L2 := (confirm L1 k reason).2 in
  records L2 = records L1
  ∧ ledger_file L2
    = ledger_file L ++ [set_confirmed reason g; set_confirmed reason g].
Proof.
  intros Hg L1 L2. unfold L2, L1.
  rewrite (confirm_hit L k reason g Hg). cbn [snd].
  rewrite (confirm_hit _ k reason (set_confirmed reason g))
    by apply lookup_insert_eq.
  cbn [snd records ledger_file]. split.
  - by rewrite insert_insert_eq.
  - by rewrite <- (assoc_L (++)).
Qed.

Lemma confirm_same_reason_twice_witness :
  records (confirm (confirm (run (init []) family_run) "7b40d5aa" "ok").2
                   "7b40d5aa" "ok").2
  = records (confirm (run (init []) family_run) "7b40d5aa" "ok").2.
Proof.
  apply (confirm_same_reason_twice (run (init []) family_run) "7b40d5aa" "ok"
           (mkGenesis "7b40d5aa" "2024-05-01T10:00:05" "assistant" AI
                      "collect the figures" (Some "3f2a9c1e") [] true false None)).
  vm_compute. reflexivity.
Defined.

Lemma tier_name_inj t1 t2 : tier_name t1 = tier_name t2 → t1 = t2.
Proof. by destruct t1, t2. Qed.

Lemma optional_str_inj o1 o2 : optional_str o1 = optional_str o2 → o1 = o2.
Proof. destruct o1, o2; intros [=]; by subst. Qed.

(** X8.  [to_dict] loses nothing: two records with the same dictionary
    are the same record, so that a line of the file stands for one
    state of one record. *)
Theorem to_dict_injective g1 g2 : to_dict g1 = to_dict g2 → g1 = g2.
Proof.
  destruct g1, g2. unfold to_dict. cbn.
  intros [= -> -> -> Htier -> Hparent -> -> -> Hreason].
  apply tier_name_inj in Htier. apply optional_str_inj in Hparent, Hreason.
  by subst.
Qed.

Lemma to_dict_injective_witness :
  to_dict own_ai_record = to_dict own_ai_record ∧ own_ai_record = own_ai_record.
Proof.
  split; [reflexivity|].
  apply (to_dict_injective own_ai_record own_ai_record). reflexivity.
Defined.

(** *** The chain visits no record twice *)

Lemma get_chain_loop_more fuel recs cur acc d n :
  get_chain_loop fuel recs cur acc = Some d →
  get_chain_loop (fuel + n) recs cur acc = Some d.
Proof.
  revert cur acc. induction fuel as [|fuel IH]; intros cur acc; [done|].
  cbn [get_chain_loop Nat.add].
  destruct cur as [cid|]; [|done].
  destruct (truthy (Some cid)); [|done].
  destruct (recs !! cid); [apply IH | done].
Qed.

(** Along a walk upwards in a ranked store the ranks fall. *)
Lemma upward_ranks recs rk bound g rest :
  ranked recs rk bound → upward recs (g :: rest) →
  ∀ r, r ∈ rest → rk (id r) < rk (id g).
Proof.
  intros [_ Hr]. revert g. induction rest as [|pg rest IH]; intros g Hup r Hin.
  - by apply elem_of_nil in Hin.
  - inversion Hup as [|? ? ? Hg _ Hpar Hup']; subst.
    assert (rk (id pg) < rk (id g)) as Hstep.
    { apply (Hr (id g) g (id pg) Hg Hpar).
      inversion Hup'; subst; eauto. }
    apply elem_of_cons in Hin as [-> | Hin]; [done|].
    specialize (IH pg Hup' r Hin). lia.
Qed.

Lemma upward_NoDup recs rk bound d :
  ranked recs rk bound → upward recs d → NoDup (id <$> d).
Proof.
  intros HR. induction d as [|g rest IH]; intros Hup; [constructor|].
  cbn. apply NoDup_cons. split.
  - intros Hin. apply list_elem_of_fmap in Hin as (r & Heq & Hr).
    pose proof (upward_ranks recs rk bound g rest HR Hup r Hr) as Hlt.
    rewrite Heq in Hlt. lia.
  - destruct rest as [|pg rest]; [constructor|].
    apply IH. by inversion Hup.
Qed.

(** X9.  In a ledger built by [create] and [confirm] calls that give
    each record an id of its own, a chain returned by [get_chain] names
    no record twice, and so is no longer than the index. *)
Theorem get_chain_no_repeat (file : list Genesis) (cs : list call)
    (k : string) (fuel : nat) (chain : list Genesis) :
  each_call fresh_key (init file) cs →
  each_call unreferenced (init file) cs →
  get_chain fuel (run (init file) cs) k = Some chain →
  NoDup (id <$> chain)
  ∧ length chain ≤ size (records (run (init file) cs)).
Proof.
  intros Hfresh Hunref Hchain.
  destruct (run_ranked cs (init file) (λ _, 0) 0) as (HK & rk & bound & HR);
    [done | apply init_ranked | done..|].
  set (L := run (init file) cs) in *.
  assert (NoDup (id <$> chain)
          ∧ ∀ r, r ∈ chain → is_Some (records L !! id r)) as [Hnd Hin].
  { destruct (records L !! k) as [g|] eqn:Hg.
    - destruct (get_chain_ranked L rk bound k g HK HR Hg) as (up & Hup & Hres).
      assert (chain = reverse (g :: up)) as ->.
      { unfold get_chain in Hchain.
        destruct (get_chain_loop fuel (records L) (Some k) []) as [d|] eqn:Hd;
          [|done].
        apply (get_chain_loop_more _ _ _ _ _ (rk k + 2)) in Hd.
        specialize (Hres (fuel + (rk k + 2))). unfold get_chain in Hres.
        rewrite Hd in Hres. cbn in Hchain, Hres.
        injection Hchain as <-. injection Hres; [done | lia]. }
      split.
      + rewrite fmap_reverse, reverse_Permutation.
        by eapply upward_NoDup.
      + intros r Hr. rewrite elem_of_reverse in Hr.
        rewrite (upward_stored _ _ r Hup Hr). eauto.
    - destruct fuel as [|fuel]; [done|].
      unfold get_chain in Hchain. cbn [get_chain_loop] in Hchain.
      rewrite Hg in Hchain.
      destruct (truthy (Some k)); cbn in Hchain; injection Hchain as <-;
        (split; [constructor | intros r Hr; by apply elem_of_nil in Hr]). }
  split; [done|].
  rewrite <- (length_fmap id), <- size_dom.
  rewrite <- (size_list_to_set (C := gset string) (id <$> chain)) by done.
  apply subseteq_size. intros x. rewrite elem_of_list_to_set.
  intros Hx. apply list_elem_of_fmap in Hx as (r & -> & Hr).
  apply elem_of_dom. by apply Hin.
Qed.

Lemma get_chain_no_repeat_witness :
  ∃ chain, get_chain 5 (run (init []) family_run) "7b40d5aa" = Some chain
           ∧ NoDup (id <$> chain)
           ∧ length chain ≤ size (records (run (init []) family_run)).
Proof.
  eexists. split; [vm_compute; reflexivity|].
  eapply (get_chain_no_repeat [] family_run "7b40d5aa" 5).
  - repeat split; done.
  - repeat split; [done | apply map_Forall_empty | done |].
    cbn. apply map_Forall_insert_2; [done | apply map_Forall_empty].
  - vm_compute. reflexivity.
Defined.

End LedgerRuns.

(** ** The gate, further *)

Section GateMore.
Import Ledger.

Lemma string_app_assoc (s t u : string) : (s +:+ t) +:+ u = s +:+ t +:+ u.
Proof.
  induction s as [|c s IH]; [done|].
  change (String c ((s +:+ t) +:+ u) = String c (s +:+ t +:+ u)).
  by rewrite IH.
Qed.

Lemma substring_trans a b c :
  Text.substring a b → Text.substring b c → Text.substring a c.
Proof.
  intros (p1 & q1 & ->) (p2 & q2 & ->).
  exists (p2 +:+ p1), (q1 +:+ q2). by rewrite !string_app_assoc.
Qed.

Lemma substring_lower_mono a b :
  Text.substring a b → Text.substring (Text.lower a) (Text.lower b).
Proof.
  intros (pre & post & ->). exists (Text.lower pre), (Text.lower post).
  by rewrite !lower_app.
Qed.

(** X10.  More text never lifts the gate: when an action requires
    confirmation for a record, so does every text the action occurs
    in, for the same record. *)
Theorem gate_monotone_in_text (action text : string) (genesis : Genesis) :
  Text.substring action text →
  requires_confirmation action genesis = true →
  requires_confirmation text genesis = true.
Proof.
  intros Hsub. unfold requires_confirmation.
  destruct (Text.any_in HIGH_RISK_ACTIONS (Text.lower action)) eqn:Hkw.
  - intros _. apply any_in_spec in Hkw as (kw & Hin & Hkw).
    assert (Text.any_in HIGH_RISK_ACTIONS (Text.lower text) = true) as ->; [|done].
    apply any_in_spec. exists kw. split; [done|].
    eapply substring_trans; [done | by apply substring_lower_mono].
  - intros Hown. destruct (Text.any_in _ (Text.lower text)); done.
Qed.

Lemma gate_monotone_in_text_witness :
  requires_confirmation "Please DELETE the old drafts, then report"
    (mkGenesis "3f2a9c1e" "2024-05-01T10:00:00" "alice" USER
               "tidy up" None [] false false None) = true.
Proof.
  apply (gate_monotone_in_text "DELETE the old drafts").
  - by exists "Please ", ", then report".
  - vm_compute. reflexivity.
Defined.

End GateMore.

(** ** The council, further *)

Section CouncilMore.
Import Council.

Context {Ctx : Type} (advisor : Persona → string → Ctx → option Reply).

(** X11.  The council is at least as careful as the gate about words:
    when the gate asks for confirmation of an action for a record that
    is not the assistant's own (so on account of a high-risk word), the
    verdict of a deliberation on that action asks for it too, whatever
    the votes. *)
Theorem gate_keyword_binds_council (self : Council.Council) (action : string)
    (context : Ctx) (genesis : Ledger.Genesis) (r1 r2 r3 : Reply) :
  Ledger.is_mine genesis = false →
  Ledger.requires_confirmation action genesis = true →
  advisor PHILOSOPHER action context = Some r1 →
  advisor ENGINEER action context = Some r2 →
  advisor GUARDIAN action context = Some r3 →
  ∃ verdict history',
    deliberate advisor self action context = Some (verdict, history')
    ∧ requires_confirmation verdict = true.
Proof.
  intros Hmine Hgate H1 H2 H3.
  destruct (deliberate_verdict advisor self action context r1 r2 r3 H1 H2 H3)
    as (verdict & Hret & _ & _ & _ & _ & _ & Hreq).
  exists verdict, (mkCouncil (history self ++ [verdict])). split; [done|].
  rewrite Hreq. unfold Ledger.requires_confirmation in Hgate.
  rewrite Hmine in Hgate. cbn [andb] in Hgate.
  destruct (Text.any_in Ledger.HIGH_RISK_ACTIONS (Text.lower action)) eqn:Hkw;
    [|done].
  apply any_in_spec in Hkw as (kw & Hin & Hsub).
  assert (Text.any_in high_risk_keywords (Text.lower action) = true) as ->; [|done].
  apply any_in_spec. exists kw. split; [by apply same_lexicon | done].
Qed.


(** X13.  The digest of a verdict lists the three stances in panel
    order, each after the name of its persona, with " | " between. *)
Theorem deliberate_final_decision (self : Council.Council) (action : string)
    (context : Ctx) (r1 r2 r3 : Reply) :
  advisor PHILOSOPHER action context = Some r1 →
  advisor ENGINEER action context = Some r2 →
  advisor GUARDIAN action context = Some r3 →
  ∃ verdict history',
    deliberate advisor self action context = Some (verdict, history')
    ∧ final_decision verdict
      = "philosopher: " +:+ reply_stance r1 +:+ " | "
        +:+ "engineer: " +:+ reply_stance r2 +:+ " | "
        +:+ "guardian: " +:+ reply_stance r3.
Proof.
  intros H1 H2 H3.
  destruct (deliberate_verdict advisor self action context r1 r2 r3 H1 H2 H3)
    as (verdict & Hret & _ & _ & _ & _ & Hdec & _).
  exists verdict, (mkCouncil (history self ++ [verdict])). split; [done|].
  rewrite Hdec. unfold _synthesize_decision, panel_votes, vote_of_reply.
  cbn [map join persona stance persona_value].
  by rewrite !string_app_assoc.
Qed.

(** X14.  The consensus level lies between 0 and 1; the verdict is
    approved exactly when it is 1, and a verdict that is not approved
    has a consensus level of 2/3 at most. *)
Theorem consensus_and_approval (self : Council.Council) (action : string)
    (context : Ctx) (r1 r2 r3 : Reply) :
  advisor PHILOSOPHER action context = Some r1 →
  advisor ENGINEER action context = Some r2 →
  advisor GUARDIAN action context = Some r3 →
  ∃ verdict history',
    deliberate advisor self action context = Some (verdict, history')
    ∧ (0 <= consensus_level verdict <= 1)%Q
    ∧ (approved verdict = true ↔ (consensus_level verdict == 1)%Q)
    ∧ (approved verdict = false → (consensus_level verdict <= 2 # 3)%Q).
Proof.
  intros H1 H2 H3.
  destruct (deliberate_verdict advisor self action context r1 r2 r3 H1 H2 H3)
    as (verdict & Hret & _ & Happ & Hcons & _).
  exists verdict, (mkCouncil (history self ++ [verdict])). split; [done|].
  rewrite Happ, Hcons, approvals_count. unfold approvals_of.
  destruct (reply_approval r1), (reply_approval r2), (reply_approval r3);
    cbn; split_and!; try done; split; done.
Qed.

(** X15.  With the three confidences between 0 and 1, the uncertainty
    level lies between 0 and 1. *)
Theorem uncertainty_bounds (self : Council.Council) (action : string)
    (context : Ctx) (r1 r2 r3 : Reply) :
  advisor PHILOSOPHER action context = Some r1 →
  advisor ENGINEER action context = Some r2 →
  advisor GUARDIAN action context = Some r3 →
  (0 <= reply_confidence r1 <= 1)%Q →
  (0 <= reply_confidence r2 <= 1)%Q →
  (0 <= reply_confidence r3 <= 1)%Q →
  ∃ verdict history',
    deliberate advisor self action context = Some (verdict, history')
    ∧ (0 <= uncertainty_level verdict <= 1)%Q.
Proof.
  intros H1 H2 H3 [Hl1 Hu1] [Hl2 Hu2] [Hl3 Hu3].
  destruct (deliberate_verdict advisor self action context r1 r2 r3 H1 H2 H3)
    as (verdict & Hret & _ & _ & _ & Hunc & _).
  exists verdict, (mkCouncil (history self ++ [verdict])). split; [done|].
  rewrite Hunc. unfold Council.sum.
  cbn [panel_votes map foldl vote_of_reply confidence].
  set (c1 := reply_confidence r1) in *. set (c2 := reply_confidence r2) in *.
  set (c3 := reply_confidence r3) in *.
  unfold Qdiv. change (/ inject_Z 3)%Q with (1 # 3)%Q. split; lra.
Qed.

End CouncilMore.

Section CouncilVotes.
Import Council.

Lemma gate_keyword_binds_council_witness :
  ∃ verdict history',
    deliberate agreeing_advisor (mkCouncil [])
               "Delete the legacy authentication module" ()
    = Some (verdict, history')
    ∧ approved verdict = true
    ∧ requires_confirmation verdict = true.
Proof.
  destruct (gate_keyword_binds_council agreeing_advisor (mkCouncil [])
              "Delete the legacy authentication module" ()
              (Ledger.mkGenesis "3f2a9c1e" "2024-05-01T10:00:00" "demo_user"
                 Ledger.USER "Delete the legacy authentication module"
                 None [] false false None)
              philosopher_yes engineer_yes guardian_yes
              eq_refl eq_refl eq_refl eq_refl eq_refl)
    as (verdict & history' & Hret & Hreq).
  exists verdict, history'. split; [exact Hret|]. split; [|exact Hreq].
  vm_compute in Hret. by injection Hret as <- _.
Defined.

Lemma deliberate_final_decision_witness :
  ∃ verdict history',
    deliberate agreeing_advisor (mkCouncil []) "Add a utility function" ()
    = Some (verdict, history')
    ∧ final_decision verdict
      = "philosopher: consistent with stated values | engineer: small and reversible change | guardian: no harm foreseen".
Proof.
  destruct (deliberate_final_decision agreeing_advisor (mkCouncil [])
              "Add a utility function" ()
              philosopher_yes engineer_yes guardian_yes
              eq_refl eq_refl eq_refl)
    as (verdict & history' & Hret & Hdec).
  exists verdict, history'. split; [exact Hret|]. rewrite Hdec. reflexivity.
Defined.

Lemma consensus_and_approval_witness :
  ∃ verdict history',
    deliberate agreeing_advisor (mkCouncil []) "Add a utility function" ()
    = Some (verdict, history')
    ∧ (consensus_level verdict == 1)%Q
    ∧ approved verdict = true.
Proof.
  destruct (consensus_and_approval agreeing_advisor (mkCouncil [])
              "Add a utility function" ()
              philosopher_yes engineer_yes guardian_yes
              eq_refl eq_refl eq_refl)
    as (verdict & history' & Hret & _ & Hiff & _).
  exists verdict, history'. split; [exact Hret|].
  assert (approved verdict = true) as Happ.
  { vm_compute in Hret. by injection Hret as <- _. }
  split; [by apply Hiff | exact Happ].
Defined.

Lemma uncertainty_bounds_witness :
  ∃ verdict history',
    deliberate agreeing_advisor (mkCouncil []) "Add a utility function" ()
    = Some (verdict, history')
    ∧ (0 <= uncertainty_level verdict <= 1)%Q.
Proof.
  apply (uncertainty_bounds agreeing_advisor (mkCouncil [])
           "Add a utility function" ()
           philosopher_yes engineer_yes guardian_yes
           eq_refl eq_refl eq_refl);
    split; vm_compute; discriminate.
Defined.

(** [find] on a decidable property is the head of [filter]. *)
Lemma find_head_filter {A} (P : A → Prop) `{∀ x, Decision (P x)} (l : list A) :
  List.find (λ x, bool_decide (P x)) l = head (filter P l).
Proof.
  induction l as [|x l IH]; [done|].
  cbn [List.find]. rewrite filter_cons.
  destruct (decide (P x)).
  - by rewrite bool_decide_eq_true_2.
  - by rewrite bool_decide_eq_false_2.
Qed.

Lemma filter_none {A} (P : A → Prop) `{∀ x, Decision (P x)} (l : list A) :
  Forall (λ x, ¬ P x) l → filter P l = [].
Proof.
  induction 1 as [|x l Hx _ IH]; [done|].
  by rewrite filter_cons_False.
Qed.

(** X16.  The confirmation check on any list of votes: a high-risk
    word in the action gives true before any vote is looked at, even
    with no vote at all; without such a word, the first vote of the
    guardian decides (true when it disapproves or lists a concern), and
    a list without a vote of the guardian makes the check raise. *)
Theorem confirmation_check_cases (action : string) (votes : list CouncilVote) :
  let risky :=
    ∃ kw, kw ∈ high_risk_keywords ∧ Text.substring kw (Text.lower action) in
  (risky → _check_confirmation_required action votes = Some true)
  ∧ (¬ risky →
     Forall (λ v, persona v ≠ GUARDIAN) votes →
     _check_confirmation_required action votes = None)
  ∧ (¬ risky →
     ∀ before gv after,
       votes = before ++ gv :: after →
       Forall (λ v, persona v ≠ GUARDIAN) before →
       persona gv = GUARDIAN →
       _check_confirmation_required action votes
       = Some (negb (approval gv) || negb (bool_decide (concerns gv = [])))).
Proof.
  intros risky. unfold _check_confirmation_required.
  destruct (Text.any_in high_risk_keywords (Text.lower action)) eqn:Hkw.
  - apply any_in_spec in Hkw. by split_and!.
  - assert (¬ risky) as Hno.
    { intros Hr. apply any_in_spec in Hr. congruence. }
    split_and!; [done | |].
    + intros _ Hnone. rewrite find_head_filter.
      by rewrite filter_none.
    + intros _ before gv after -> Hbefore Hgv.
      rewrite find_head_filter, filter_app, filter_cons_True by done.
      rewrite filter_none by done.
      cbn. by destruct (_ || _).
Qed.

Lemma approvals_perm (l l' : list CouncilVote) :
  l ≡ₚ l' →
  length (List.filter approval l) = length (List.filter approval l').
Proof.
  induction 1 as [|v l l' _ IH|v w l|l1 l2 l3 _ IH1 _ IH2];
    cbn [List.filter]; [done | | | congruence].
  - destruct (approval v); cbn; congruence.
  - by destruct (approval v), (approval w).
Qed.

(** X17.  The order of the votes does not matter to the confirmation
    check nor to the count of approvals, as long as the guardian has
    one vote in the list. *)
Theorem votes_order_irrelevant (action : string) (votes votes' : list CouncilVote) :
  votes ≡ₚ votes' →
  length (filter (λ v, persona v = GUARDIAN) votes) = 1 →
  _check_confirmation_required action votes
  = _check_confirmation_required action votes'
  ∧ length (List.filter approval votes) = length (List.filter approval votes').
Proof.
  intros Hperm Hone. split.
  - unfold _check_confirmation_required. rewrite !find_head_filter.
    assert (filter (λ v, persona v = GUARDIAN) votes
            = filter (λ v, persona v = GUARDIAN) votes') as ->; [|done].
    destruct (filter (λ v, persona v = GUARDIAN) votes) as [|gv [|? ?]] eqn:Hf;
      try done.
    apply Permutation_singleton_l. by rewrite <- Hf, Hperm.
  - by apply approvals_perm.
Qed.

Lemma votes_order_irrelevant_witness :
  _check_confirmation_required "Add a utility function"
    (panel_votes philosopher_yes engineer_yes guardian_yes_but)
  = _check_confirmation_required "Add a utility function"
      [vote_of_reply GUARDIAN guardian_yes_but;
       vote_of_reply PHILOSOPHER philosopher_yes;
       vote_of_reply ENGINEER engineer_yes].
Proof.
  apply (votes_order_irrelevant "Add a utility function").
  - unfold panel_votes.
    etrans; [apply Permutation_skip, Permutation_swap | apply Permutation_swap].
  - vm_compute. reflexivity.
Defined.

End CouncilVotes.

(** ** The audit, further *)

Section AuditMore.
Import Benevolence.

Variable pow_half : Q → Q.

Implicit Types (action basis : string) (ctx : list string) (layer : AuditLayer).

Lemma ratio_bounds (n m : nat) : n ≤ m → 0 < m → (0 <= ratio n m <= 1)%Q.
Proof.
  intros Hnm Hm. unfold ratio.
  assert (0 < inject_Z (Z.of_nat m))%Q as Hpos.
  { change 0%Q with (inject_Z 0). rewrite <- Zlt_Qlt. lia. }
  split.
  - apply Qle_shift_div_l; [done|]. rewrite Qmult_0_l.
    change 0%Q with (inject_Z 0). rewrite <- Zle_Qle. lia.
  - apply Qle_shift_div_r; [done|]. rewrite Qmult_1_l.
    rewrite <- Zle_Qle. lia.
Qed.

Lemma ratio_mono (n n' m : nat) : n ≤ n' → 0 < m → (ratio n m <= ratio n' m)%Q.
Proof.
  intros Hn Hm. unfold ratio, Qdiv.
  apply Qmult_le_compat_r.
  - rewrite <- Zle_Qle. lia.
  - apply Qinv_le_0_compat. change 0%Q with (inject_Z 0).
    rewrite <- Zle_Qle. lia.
Qed.

Lemma word_set_size_pos text : word_set text ≠ ∅ → 0 < size (word_set text).
Proof.
  intros Hne. destruct (size (word_set text)) eqn:Hs; [|lia].
  by apply size_empty_inv, leibniz_equiv in Hs.
Qed.

Lemma shadow_score_bounds action ctx :
  (0 <= (_check_shadow action ctx).2 <= 1)%Q.
Proof.
  unfold _check_shadow. destruct ctx as [|f ctx]; [done|].
  destruct (bool_decide_reflect (word_set action = ∅)) as [|Hne]; [done|].
  assert (0 <= ratio (size (word_set action ∩ context_word_set (f :: ctx)))
                     (size (word_set action)) <= 1)%Q as Hb.
  { apply ratio_bounds; [|by apply word_set_size_pos].
    apply subseteq_size, intersection_subseteq_l. }
  by destruct (Qlt_le_dec _ _).
Qed.

Lemma phrase_score_bounds action :
  (0 <= (_check_benevolence action).2 <= 1)%Q.
Proof.
  unfold _check_benevolence.
  set (p := pleasing_count action). set (h := honest_count action).
  assert (0 <= (if p + h =? 0 then 1 # 2 else ratio h (p + h)) <= 1)%Q as Hb.
  { destruct (Nat.eqb_spec (p + h) 0); [done|]. apply ratio_bounds; lia. }
  by destruct (_ && _).
Qed.

Lemma audit_scores_bounds_aux action ctx basis layer :
  let a := audit pow_half action ctx basis layer in
  (0 <= context_score a <= 1)%Q ∧ (0 <= phrase_score a <= 1)%Q.
Proof.
  intros a. unfold a.
  rewrite (proj2 (audit_shadow pow_half action ctx basis layer)).
  rewrite (proj2 (audit_benevolence pow_half action ctx basis layer)).
  split; [apply shadow_score_bounds | apply phrase_score_bounds].
Qed.

(** X18.  The context score and the phrase score of every audit result
    lie between 0 and 1. *)
Theorem audit_scores_in_unit action ctx basis layer :
  let a := audit pow_half action ctx basis layer in
  (0 <= context_score a <= 1)%Q ∧ (0 <= phrase_score a <= 1)%Q.
Proof.
  apply audit_scores_bounds_aux.
Qed.

(** The tension of an audit result, from its two scores. *)
Lemma audit_tension action ctx basis layer :
  let a := audit pow_half action ctx basis layer in
  tension_score a = (1 - pow_half (context_score a * phrase_score a))%Q.
Proof.
  unfold audit. destruct (_check_shadow action ctx), (_check_benevolence action).
  by destruct (_finalize _).
Qed.

(** X19.  When the square root used maps the interval from 0 to 1 into
    itself, the tension score of every audit result lies between 0 and
    1. *)
Theorem audit_tension_in_unit action ctx basis layer :
  (∀ x, (0 <= x <= 1)%Q → (0 <= pow_half x <= 1)%Q) →
  (0 <= tension_score (audit pow_half action ctx basis layer) <= 1)%Q.
Proof.
  intros Hroot.
  pose proof (audit_tension action ctx basis layer) as Ht. cbv zeta in Ht.
  rewrite Ht.
  destruct (audit_scores_bounds_aux action ctx basis layer) as [[Hc0 Hc1] [Hp0 Hp1]].
  set (c := context_score _) in *. set (p := phrase_score _) in *.
  destruct (Hroot (c * p)%Q) as [Hr0 Hr1]; [|split; lra].
  split; [by apply Qmult_le_0_compat|].
  apply (Qle_trans _ (1 * p)); [by apply Qmult_le_compat_r | lra].
Qed.

(** *** The shadow check and its context *)

Lemma elem_of_context_words w ctx :
  w ∈ context_word_set ctx ↔ ∃ f, f ∈ ctx ∧ w ∈ word_set f.
Proof.
  rewrite context_word_set_union, elem_of_union_list. split.
  - intros (X & HX & Hw). apply list_elem_of_fmap in HX as (f & -> & Hf). eauto.
  - intros (f & Hf & Hw). exists (word_set f). split; [|done].
    apply list_elem_of_fmap. eauto.
Qed.

(** The shadow check with a context: the result in terms of the two
    word sets. *)
Lemma shadow_with_context action f ctx :
  let A := word_set action in
  let C := context_word_set (f :: ctx) in
  _check_shadow action (f :: ctx)
  = if bool_decide (A = ∅) then (PASS, 0%Q)
    else if Qlt_le_dec (ratio (size (A ∩ C)) (size A)) (3 # 10)
         then (REJECT, ratio (size (A ∩ C)) (size A))
         else (PASS, ratio (size (A ∩ C)) (size A)).
Proof. reflexivity. Qed.

(** X20.  A grounded action passes: when every word of the action is a
    word of the context, the shadow check passes, and with a context
    and at least one word in the action the score is 1.  An action that
    is one of the context fragments is such an action. *)
Theorem grounded_action_passes action ctx :
  (word_set action ⊆ context_word_set ctx →
     (_check_shadow action ctx).1 = PASS
     ∧ (ctx ≠ [] → word_set action ≠ ∅ → ((_check_shadow action ctx).2 == 1)%Q))
  ∧ (action ∈ ctx → word_set action ⊆ context_word_set ctx).
Proof.
  split.
  - intros Hsub. destruct ctx as [|f ctx]; [done|].
    rewrite shadow_with_context. cbv zeta.
    destruct (bool_decide_reflect (word_set action = ∅)) as [|Hne]; [done|].
    assert (word_set action ∩ context_word_set (f :: ctx) = word_set action) as ->.
    { apply set_eq. intros w. rewrite elem_of_intersection. split; [by intros [? _]|].
      intros Hw. split; [done | by apply Hsub]. }
    assert (ratio (size (word_set action)) (size (word_set action)) == 1)%Q as Hone.
    { unfold ratio. apply Qmult_inv_r. change 0%Q with (inject_Z 0).
      rewrite inject_Z_injective. pose proof (word_set_size_pos action Hne). lia. }
    destruct (Qlt_le_dec _ _) as [Hlt|_]; cbn [fst snd].
    + rewrite Hone in Hlt. exfalso. apply (Qlt_not_le _ _ Hlt).
      unfold Qle. cbn. lia.
    + split; [done | by intros _ _].
  - intros Hin w Hw. apply elem_of_context_words. eauto.
Qed.

(** X21.  More context never hurts: when the shadow check passes an
    action against a context that is not empty, it passes it against
    that context with further fragments, with a score at least as
    high. *)
Theorem shadow_monotone_in_context action ctx more :
  ctx ≠ [] →
  (_check_shadow action ctx).1 = PASS →
  (_check_shadow action (ctx ++ more)).1 = PASS
  ∧ ((_check_shadow action ctx).2 <= (_check_shadow action (ctx ++ more)).2)%Q.
Proof.
  intros Hctx. destruct ctx as [|f ctx]; [done|].
  change ((f :: ctx) ++ more) with (f :: (ctx ++ more)).
  rewrite !shadow_with_context. cbv zeta.
  destruct (bool_decide_reflect (word_set action = ∅)) as [|Hne]; [done|].
  set (A := word_set action).
  assert (ratio (size (A ∩ context_word_set (f :: ctx))) (size A)
          <= ratio (size (A ∩ context_word_set (f :: ctx ++ more))) (size A))%Q
    as Hmono.
  { apply ratio_mono; [|by apply word_set_size_pos].
    apply subseteq_size. intros w. rewrite !elem_of_intersection.
    intros [HA HC]. split; [done|].
    apply elem_of_context_words in HC as (g & Hg & Hw).
    apply elem_of_context_words. exists g. split; [|done].
    change (f :: ctx ++ more) with ((f :: ctx) ++ more).
    apply elem_of_app. by left. }
  destruct (Qlt_le_dec _ _) as [|Hge]; [done|]. intros _.
  destruct (Qlt_le_dec _ _) as [Hlt|]; cbn [fst snd]; [|done].
  exfalso. apply (Qlt_not_le _ _ Hlt). by eapply Qle_trans.
Qed.

(** X22.  The shadow check sees the context as a set of fragments: two
    lists with the same fragments, in any order and with any
    repetition, give the same result. *)
Theorem shadow_context_as_set action ctx ctx' :
  (∀ f, f ∈ ctx ↔ f ∈ ctx') →
  _check_shadow action ctx = _check_shadow action ctx'.
Proof.
  intros Hsame.
  assert (context_word_set ctx = context_word_set ctx') as Hwords.
  { apply set_eq. intros w. rewrite !elem_of_context_words.
    split; intros (f & Hf & Hw); exists f; split; try done; by apply Hsame. }
  destruct ctx as [|f ctx], ctx' as [|f' ctx'].
  - done.
  - exfalso. apply (not_elem_of_nil f'), Hsame. by left.
  - exfalso. apply (not_elem_of_nil f), Hsame. by left.
  - rewrite !shadow_with_context. cbv zeta. by rewrite Hwords.
Qed.

(** *** Case *)

Lemma lower_char_idemp c : Text.lower_char (Text.lower_char c) = Text.lower_char c.
Proof. destruct c as [[] [] [] [] [] [] [] []]; reflexivity. Qed.

Lemma lower_idemp s : Text.lower (Text.lower s) = Text.lower s.
Proof.
  induction s as [|c s IH]; [done|].
  cbn [Text.lower]. by rewrite lower_char_idemp, IH.
Qed.

Lemma word_set_lower text : word_set (Text.lower text) = word_set text.
Proof. unfold word_set. by rewrite lower_idemp. Qed.

(** X23.  The audit does not see case: lowering the action and the
    context fragments changes the result of neither the shadow check
    nor the benevolence check. *)
Theorem checks_ignore_case action ctx :
  _check_shadow (Text.lower action) (Text.lower <$> ctx)
  = _check_shadow action ctx
  ∧ _check_benevolence (Text.lower action) = _check_benevolence action.
Proof.
  split.
  - assert (context_word_set (Text.lower <$> ctx) = context_word_set ctx) as Hwords.
    { apply set_eq. intros w. rewrite !elem_of_context_words. split.
      - intros (f & Hf & Hw). apply list_elem_of_fmap in Hf as (f0 & -> & Hf0).
        rewrite word_set_lower in Hw. eauto.
      - intros (f & Hf & Hw). exists (Text.lower f). split.
        + apply list_elem_of_fmap. eauto.
        + by rewrite word_set_lower. }
    destruct ctx as [|f ctx]; [done|].
    change (Text.lower <$> f :: ctx) with (Text.lower f :: (Text.lower <$> ctx)).
    rewrite !shadow_with_context. cbv zeta.
    change (Text.lower f :: (Text.lower <$> ctx)) with (Text.lower <$> f :: ctx).
    by rewrite Hwords, word_set_lower.
  - unfold _check_benevolence, pleasing_count, honest_count.
    by rewrite lower_idemp.
Qed.

(** *** The benevolence check and the verdict *)

(** X24.  An honest marker is enough to pass the benevolence check; and
    an intercepted action has a phrase score of 0. *)
Theorem honest_marker_passes action :
  (0 < honest_count action → (_check_benevolence action).1 = PASS)
  ∧ ((_check_benevolence action).1 = INTERCEPT →
     ((_check_benevolence action).2 == 0)%Q).
Proof.
  unfold _check_benevolence.
  set (p := pleasing_count action). set (h := honest_count action).
  split.
  - intros Hh. destruct (Nat.eqb_spec h 0); [lia|].
    by rewrite andb_false_r.
  - destruct (Nat.leb_spec 2 p), (Nat.eqb_spec h 0); cbn [andb fst snd];
      try done. intros _.
    destruct (Nat.eqb_spec (p + h) 0); [lia|].
    assert (h = 0) as -> by done. unfold ratio, Qdiv. apply Qmult_0_l.
Qed.

(** X25.  With the default basis and layer the audit never flags, with
    no context it never rejects; so an audit called with the action
    alone and no context ends in PASS or INTERCEPT, with a context
    score of 1/2. *)
Theorem audit_defaults action ctx basis layer :
  final_result (audit pow_half action ctx "Inference" L2) ≠ FLAG
  ∧ final_result (audit pow_half action [] basis layer) ≠ REJECT
  ∧ (final_result (audit pow_half action [] "Inference" L2) = PASS
     ∨ final_result (audit pow_half action [] "Inference" L2) = INTERCEPT)
  ∧ context_score (audit pow_half action [] basis layer) = (1 # 2)%Q.
Proof.
  assert (∀ ctx basis layer,
            final_result (audit pow_half action ctx basis layer)
            = (_finalize_loop
                 [((_check_shadow action ctx).1, msg_shadow);
                  ((_check_benevolence action).1, msg_benevolence);
                  (_check_attribute basis layer, msg_attribute)]).1) as Hfinal.
  { intros c b l. pose proof (audit_finalized pow_half action c b l) as Hf.
    cbv zeta in Hf. unfold priority in Hf.
    rewrite (proj1 (audit_shadow pow_half action c b l)),
      (proj1 (audit_benevolence pow_half action c b l)),
      audit_attribute in Hf.
    by rewrite <- Hf. }
  assert (context_score (audit pow_half action [] basis layer) = (1 # 2)%Q)
    as Hscore by (by rewrite (proj2 (audit_shadow pow_half action [] basis layer))).
  rewrite !Hfinal.
  destruct (shadow_outcomes action ctx) as [Hs | Hs],
    (benevolence_outcomes action) as [Hb | Hb],
    (attribute_outcomes basis layer) as [Ha | Ha];
    rewrite ?Hs, ?Hb, ?Ha; cbn;
    (split_and!; [done | done | auto | exact Hscore]).
Qed.

(** *** The filter object *)

Lemma string_app_empty_r (s : string) : s +:+ "" = s.
Proof.
  induction s as [|c s IH]; [done|].
  change (String c (s +:+ "") = String c s). by rewrite IH.
Qed.

Lemma split_on_go_head sep cur s :
  head (Text.split_on_go sep cur s) = Some (cur +:+ Text.before sep s).
Proof.
  revert cur. induction s as [|c s IH]; intros cur; cbn [Text.split_on_go Text.before].
  - by rewrite string_app_empty_r.
  - destruct (decide (c = sep)); [by rewrite string_app_empty_r|].
    by rewrite IH, string_app_assoc.
Qed.

Lemma before_spec sep s :
  ∃ rest, s = Text.before sep s +:+ rest
          ∧ Text.has_char sep (Text.before sep s) = false
          ∧ (rest = "" ∨ ∃ r, rest = String sep r).
Proof.
  induction s as [|c s (rest & Hs & Hno & Hrest)]; cbn [Text.before].
  - exists "". split_and!; [done | done | by left].
  - destruct (decide (c = sep)) as [->|Hne].
    + exists (String sep s). split_and!; [done | done | right; eauto].
    + exists rest. split_and!; [| |done].
      * change (String c s = String c (Text.before sep s +:+ rest)). by rewrite <- Hs.
      * cbn [Text.has_char]. by rewrite bool_decide_eq_false_2, Hno.
Qed.

(** X26.  The filter is built with honesty as priority exactly when the
    word Honesty stands in the protocol before its first ">" (anywhere
    in it when there is none); what follows the first ">" is not
    looked at. *)
Theorem honesty_priority_first_clause (protocol : string) :
  (honesty_priority (new_filter protocol) = true
   ↔ Text.substring "Honesty" (Text.before ">" protocol))
  ∧ user_protocol (new_filter protocol) = protocol
  ∧ ∃ rest, protocol = Text.before ">" protocol +:+ rest
            ∧ Text.has_char ">" (Text.before ">" protocol) = false
            ∧ (rest = "" ∨ ∃ r, rest = String ">" r).
Proof.
  split_and!; [| done | apply before_spec].
  unfold new_filter, Text.split_on. cbn [honesty_priority].
  rewrite split_on_go_head. cbn [default]. apply contains_spec.
Qed.

End AuditMore.

Section AuditMoreExamples.
Import Benevolence.

Lemma audit_tension_in_unit_witness :
  (0 <= tension_score (audit (λ x, x) flattering_action ["help request"]
                             "Inference" L2) <= 1)%Q.
Proof.
  apply (audit_tension_in_unit (λ x, x)). done.
Defined.

Lemma grounded_action_passes_witness :
  (_check_shadow "weather forecast" shadowless_context).1 = PASS
  ∧ ((_check_shadow "weather forecast" shadowless_context).2 == 1)%Q.
Proof.
  destruct (grounded_action_passes "weather forecast" shadowless_context)
    as [Hpass Hin].
  destruct Hpass as [Hp Hscore].
  - apply Hin. by left.
  - split; [exact Hp|]. apply Hscore; [done|].
    intros HA. apply (f_equal size) in HA. vm_compute in HA. discriminate.
Defined.

Lemma shadow_monotone_in_context_witness :
  (_check_shadow "daily weather report" ["weather forecast"; "daily news"]).1
  = PASS.
Proof.
  apply (shadow_monotone_in_context "daily weather report"
           ["weather forecast"] ["daily news"]); [done|].
  vm_compute. reflexivity.
Defined.

Lemma shadow_context_as_set_witness :
  _check_shadow "daily weather report" ["weather forecast"; "daily news"]
  = _check_shadow "daily weather report"
      ["daily news"; "weather forecast"; "daily news"].
Proof.
  apply shadow_context_as_set. intros f.
  rewrite !elem_of_cons, !elem_of_nil. tauto.
Defined.

End AuditMoreExamples.

(** ** Child lists *)

Section LedgerLinks.
Import Ledger.

Implicit Types (L : GenesisLedger) (g : Genesis) (k gid : string).

Lemma exec_children_truthful L c :
  children_truthful (records L) → fresh_key L c →
  children_truthful (records (exec L c)).
Proof.
  intros HT Hfresh p pg' c0 Hpg' Hc0.
  destruct c as [gid ts ini req t q mine | gid reason];
    cbn [exec fresh_key] in *.
  - destruct Hfresh as [_ Hnew].
    destruct (decide (p = gid)) as [->|Hp].
    { rewrite create_lookup_new in Hpg'. injection Hpg' as <-.
      by apply elem_of_nil in Hc0. }
    apply create_old_inv in Hpg' as (pg & Hpg & _ & _ & Hch); [|done].
    assert (c0 ∈ children_ids pg →
            ∃ g, records (create L gid ts ini req t q mine).2 !! c0 = Some g
                 ∧ parent_id g = Some p) as Hold.
    { intros Hin. destruct (HT p pg c0 Hpg Hin) as (g & Hg & Hpar).
      assert (c0 ≠ gid) as Hne by congruence.
      destruct (create_old_fwd L gid ts ini req t q mine c0 g Hne Hg)
        as (g' & Hg' & _ & Hpar' & _).
      exists g'. split; [done | congruence]. }
    destruct Hch as [Hsame | [Hq Hadded]].
    + apply Hold. by rewrite <- Hsame.
    + rewrite Hadded in Hc0. apply elem_of_app in Hc0 as [Hin | Hnew0].
      * by apply Hold.
      * apply list_elem_of_singleton in Hnew0 as ->.
        rewrite create_lookup_new. eauto.
  - apply confirm_inv in Hpg' as (pg & Hpg & _ & _ & Hch).
    rewrite Hch in Hc0. destruct (HT p pg c0 Hpg Hc0) as (g & Hg & Hpar).
    destruct (confirm_fwd L gid reason c0 g Hg) as (g' & Hg' & _ & Hpar' & _).
    exists g'. split; [done | congruence].
Qed.

Lemma run_children_truthful cs : ∀ L,
  children_truthful (records L) → each_call fresh_key L cs →
  children_truthful (records (run L cs)).
Proof.
  induction cs as [|c cs IH]; intros L HT Hfresh; [done|].
  destruct Hfresh as [Hf Hfresh]. rewrite run_cons.
  apply IH; [by apply exec_children_truthful | done].
Qed.

(** X27.  The two directions of the parent link agree: in a ledger built
    by [create] and [confirm] calls that give each record an id of its
    own, the child list of a stored record names exactly the stored
    records whose parent_id is the id of that record. *)
Theorem child_list_exact (file : list Genesis) (cs : list call)
    (p : string) (pg : Genesis) (c : string) :
  each_call fresh_key (init file) cs →
  each_call unreferenced (init file) cs →
  records (run (init file) cs) !! p = Some pg →
  (c ∈ children_ids pg
   ↔ ∃ g, records (run (init file) cs) !! c = Some g ∧ parent_id g = Some p).
Proof.
  intros Hfresh Hunref Hpg.
  assert (children_truthful (records (run (init file) cs))) as HT.
  { apply run_children_truthful; [|done].
    intros ? ? ? Hempty. cbn in Hempty. by rewrite lookup_empty in Hempty. }
  assert (linked_where_stored (records (run (init file) cs))) as HL.
  { apply run_linked_where_stored; [done | | done..].
    intros ? ? ? ? Hempty. cbn in Hempty. by rewrite lookup_empty in Hempty. }
  split.
  - by apply HT.
  - intros (g & Hg & Hpar). by apply (HL c g p pg).
Qed.

Lemma child_list_exact_witness :
  ∃ pg, records (run (init []) family_run) !! "3f2a9c1e" = Some pg
        ∧ "7b40d5aa" ∈ children_ids pg.
Proof.
  eexists. split; [vm_compute; reflexivity|].
  eapply (child_list_exact [] family_run "3f2a9c1e" _ "7b40d5aa").
  - repeat split; done.
  - repeat split; [done | apply map_Forall_empty | done |].
    cbn. apply map_Forall_insert_2; [done | apply map_Forall_empty].
  - vm_compute. reflexivity.
  - eexists. split; [vm_compute; reflexivity | reflexivity].
Defined.

End LedgerLinks.

(** ** Further examples *)

Section FurtherExamples.
Import Council Benevolence.


Lemma confirmation_check_cases_witness :
  _check_confirmation_required "Add a utility function" [] = None
  ∧ _check_confirmation_required "Delete the legacy module" [] = Some true.
Proof.
  destruct (confirmation_check_cases "Add a utility function" [])
    as (_ & Hnone & _).
  destruct (confirmation_check_cases "Delete the legacy module" [])
    as (Hrisky & _).
  split.
  - apply Hnone; [|constructor].
    intros Hr. apply any_in_spec in Hr. vm_compute in Hr. discriminate.
  - apply Hrisky. exists "delete". split; [by left|].
    by exists "", " the legacy module".
Defined.

Lemma honest_marker_passes_witness :
  (_check_benevolence honest_action).1 = PASS.
Proof.
  apply (honest_marker_passes honest_action).
  vm_compute. repeat constructor.
Defined.

Lemma honesty_priority_first_clause_witness :
  honesty_priority (new_filter default_protocol) = true
  ∧ honesty_priority (new_filter "Helpfulness > Honesty") = false.
Proof.
  destruct (honesty_priority_first_clause default_protocol)
    as (Hdefault & _).
  destruct (honesty_priority_first_clause "Helpfulness > Honesty")
    as (Hother & _).
  split.
  - apply Hdefault. by exists "γ·", " ".
  - apply not_true_is_false. intros Hp.
    apply Hother in Hp. apply contains_spec in Hp. vm_compute in Hp. discriminate.
Defined.

End FurtherExamples.
